(** * expr: a shallow embedding of robpike/expr (expr.go)

    The package parses integer expressions with a recursive-descent parser
    and evaluates the resulting tree against a map of variables.  This file
    embeds [Expr], [Expr.String], the parser ([Parse] and its helpers) and
    the evaluator ([Expr.Eval]) and proves properties of them.

    Go strings are byte sequences: they are modelled by [string] (a list of
    8-bit [ascii]).  Go's [int] is taken to be 64 bits wide and is modelled
    by [Z] with the two's-complement wrap-around written out ([wrap]). *)

From Stdlib Require Import ZArith Lia Bool Ascii String List.
From stdpp Require Import base gmap strings.

Local Open Scope string_scope.
Local Open Scope Z_scope.

(** ** Machine integers *)

Module Int.

Definition width : Z := 64.
Definition modulus : Z := 2 ^ width.
Definition half : Z := 2 ^ (width - 1).
Definition minInt : Z := - half.
Definition maxInt : Z := half - 1.

(** Reduction of a mathematical integer to the signed 64-bit range. *)
Definition wrap (z : Z) : Z := (z + half) mod modulus - half.

Definition inRange (z : Z) : Prop := minInt <= z <= maxInt.

Definition add (a b : Z) : Z := wrap (a + b).
Definition sub (a b : Z) : Z := wrap (a - b).
Definition mul (a b : Z) : Z := wrap (a * b).
Definition neg (a : Z) : Z := wrap (- a).
(** Go's [/] and [%] truncate towards zero; [minInt / -1] wraps. *)
Definition quo (a b : Z) : Z := wrap (Z.quot a b).
Definition rem (a b : Z) : Z := wrap (Z.rem a b).
(** [a << n] for [0 <= n]: every bit is shifted out once [n] reaches the
    width. *)
Definition shl (a n : Z) : Z :=
  if width <=? n then 0 else wrap (Z.shiftl a n).
(** [a >> n] for [0 <= n] is the arithmetic shift. *)
Definition shr (a n : Z) : Z :=
  if width <=? n then (if a <? 0 then -1 else 0) else Z.shiftr a n.

End Int.

(** ** Bytes *)

Definition byteOf (c : ascii) : Z := Z.of_N (N_of_ascii c).
Definition ofByte (z : Z) : ascii := ascii_of_N (Z.to_N z).

(** ** Error values and panics

    [throw] panics with [errors.New(msg)]; an out-of-range index panics with
    a [runtime.Error].  Both implement the [error] interface, which is what
    [recoverer] tests for.  [panic("...")] with a plain string does not. *)

Inductive error : Type :=
  | errorString (msg : string)
  | runtimeError (msg : string).

Definition Error (e : error) : string :=
  match e with
  | errorString msg => msg
  | runtimeError msg => "runtime error: " +:+ msg
  end.

Inductive panicValue : Type :=
  | PanicError (e : error)
  | PanicString (msg : string).

(** ** The expression tree

    [*Expr] is a pointer that may be nil: [Nil] is the nil pointer and
    [Node op left right ident num] a pointer to a struct with these
    fields. *)

Inductive Expr : Type :=
  | Nil
  | Node (op : string) (left right : Expr) (ident : string) (num : Z).

Definition isNil (e : Expr) : bool :=
  match e with Nil => true | _ => false end.

(** The composite literals the parser builds; unset fields are zero. *)
Definition numLeaf (n : Z) : Expr := Node "" Nil Nil "" n.
Definition identLeaf (x : string) : Expr := Node "" Nil Nil x 0.
Definition unaryNode (op : string) (r : Expr) : Expr := Node op Nil r "" 0.
Definition binaryNode (op : string) (l r : Expr) : Expr := Node op l r "" 0.

(** ** Decimal formatting: [fmt.Sprint] of an [int] *)

Definition digitChar (d : Z) : ascii := ofByte (48 + d).

Fixpoint utoaAux (fuel : nat) (n : Z) (acc : string) : string :=
  match fuel with
  | O => acc
  | S fuel' =>
      let acc' := String (digitChar (n mod 10)) acc in
      if n <? 10 then acc' else utoaAux fuel' (n / 10) acc'
  end.

(** Decimal digits of a non-negative [n]; [n] has at most
    [Z.log2 n + 1] digits. *)
Definition utoa (n : Z) : string :=
  utoaAux (S (Z.to_nat (Z.log2 n))) n "".

Definition itoa (n : Z) : string :=
  if n <? 0 then String "-" (utoa (- n)) else utoa n.

(** ** [Expr.String] *)

Definition isEmpty (s : string) : bool :=
  match s with EmptyString => true | _ => false end.

Fixpoint String_ (e : Expr) : string :=
  match e with
  | Nil => ""
  | Node op l r ident num =>
      if isEmpty op then
        if negb (isNil l) then String_ l
        else if negb (isEmpty ident) then ident
        else itoa num
      else
        let left := String_ l in
        let right := String_ r in
        if isEmpty left then "(" +:+ op +:+ right +:+ ")"
        else "(" +:+ left +:+ " " +:+ op +:+ " " +:+ right +:+ ")"
  end.

(** ** Results of code that may panic *)

Inductive result (A : Type) : Type :=
  | Ret (a : A)
  | Panic (v : panicValue).
Arguments Ret {A} a.
Arguments Panic {A} v.

Definition bind {A B : Type} (m : result A) (k : A -> result B) : result B :=
  match m with
  | Ret a => k a
  | Panic v => Panic v
  end.

Notation "'let*' x ':=' m 'in' k" := (bind m (fun x => k))
  (at level 10, x name, m at level 100, k at level 200, only parsing).

(** [throw(s...)] is [panic(errors.New(fmt.Sprint(s...)))]. *)
Definition throw {A : Type} (msg : string) : result A :=
  Panic (PanicError (errorString msg)).

(** What a function with a deferred [recoverer] hands to its caller: its
    named results, or the panic it lets through.  [Diverge] stands for a
    computation that does not come back. *)
Inductive outcome (A : Type) : Type :=
  | Return (a : A) (err : option error)
  | Crash (v : panicValue)
  | Diverge.
Arguments Return {A} a err.
Arguments Crash {A} v.
Arguments Diverge {A}.

(** ** Quoting: the [%q] verb

    [fmt.Sprintf("%q", s)] is [strconv.Quote], which lives in Go's library.
    The definition below follows it byte by byte.  It is exact on ASCII
    input; a byte from 0x80 on is written as a [\x] escape, which is what
    [strconv.Quote] does for a byte that does not start a valid UTF-8
    sequence. *)

Definition hexDigit (d : Z) : ascii :=
  if d <? 10 then ofByte (48 + d) else ofByte (87 + d).

Definition quoteByte (c : ascii) : string :=
  let b := byteOf c in
  if (b =? 34) || (b =? 92) then String "\" (String c "")
  else if (32 <=? b) && (b <? 127) then String c ""
  else if b =? 7 then "\a"
  else if b =? 8 then "\b"
  else if b =? 12 then "\f"
  else if b =? 10 then "\n"
  else if b =? 13 then "\r"
  else if b =? 9 then "\t"
  else if b =? 11 then "\v"
  else String "\" (String "x" (String (hexDigit (b / 16))
                                 (String (hexDigit (b mod 16)) ""))).

Fixpoint quoteBody (s : string) : string :=
  match s with
  | EmptyString => EmptyString
  | String c s' => quoteByte c +:+ quoteBody s'
  end.

Definition quote (s : string) : string :=
  String "034" (quoteBody s +:+ String "034" "").

(** ** The parser

    [parser] holds the unread input [p.s]; every method is modelled as a
    function of that string which returns the new one. *)

Definition eof : ascii := "000"%char.

Definition whitespace : string :=
  String " " (String "009" (String "010" (String "013" ""))).

Fixpoint containsByte (set : string) (c : ascii) : bool :=
  match set with
  | EmptyString => false
  | String d set' => if Ascii.eqb c d then true else containsByte set' c
  end.

Definition starts (set : string) (s : string) : bool :=
  match s with
  | EmptyString => false
  | String c _ => containsByte set c
  end.

Fixpoint skip (s : string) : string :=
  match s with
  | EmptyString => EmptyString
  | String _ s' => if starts whitespace s then skip s' else s
  end.

Definition next (doSkip : bool) (s : string) : ascii * string :=
  let s := if doSkip then skip s else s in
  match s with
  | EmptyString => (eof, s)
  | String c s' => (c, s')
  end.

Definition peek (doSkip : bool) (s : string) : ascii * string :=
  let s := if doSkip then skip s else s in
  match s with
  | EmptyString => (eof, s)
  | String c _ => (c, s)
  end.

Definition len (s : string) : Z := Z.of_nat (String.length s).

(** [s[i]], which panics when [i] is out of range. *)
Definition index (s : string) (i : nat) : result ascii :=
  match String.get i s with
  | Some c => Ret c
  | None =>
      Panic (PanicError (runtimeError
        ("index out of range [" +:+ itoa (Z.of_nat i)
           +:+ "] with length " +:+ itoa (len s))))
  end.

(** [maybe] is only called on a non-empty [p.s]; [p.s[1]] is read under the
    guard [len(p.s) >= 2]. *)
Definition maybe (extra : string) (s : string) : nat :=
  match s with
  | String _ (String c1 _) => if containsByte extra c1 then 2%nat else 1%nat
  | _ => 1%nat
  end.

Definition nextOpLen (s : string) : result nat :=
  match s with
  | EmptyString => Ret 0%nat
  | String c _ =>
      if containsByte "+-*/%^" c then Ret 1%nat
      else if Ascii.eqb c "<" then Ret (maybe "=<" s)
      else if Ascii.eqb c ">" then Ret (maybe "=>" s)
      else if Ascii.eqb c "&" then Ret (maybe "&^" s)
      else if Ascii.eqb c "|" then Ret (maybe "|" s)
      else if Ascii.eqb c "!" then Ret (maybe "=" s)
      else if Ascii.eqb c "=" then
        (* len(p.s) >= 2 || p.s[1] == '=' *)
        if 2 <=? len s then Ret 2%nat
        else
          let* c1 := index s 1 in
          if Ascii.eqb c1 "=" then Ret 2%nat else Ret 0%nat
      else Ret 0%nat
  end.

(** [s[:n]] and [s[n:]] for [n <= len(s)]. *)
Fixpoint take (n : nat) (s : string) : string :=
  match n, s with
  | S n', String c s' => String c (take n' s')
  | _, _ => EmptyString
  end.

Fixpoint drop (n : nat) (s : string) : string :=
  match n, s with
  | S n', String _ s' => drop n' s'
  | _, _ => s
  end.

(** The loop over [doubles], two bytes at a time; every call site passes a
    string of even length. *)
Fixpoint containsPair (doubles : string) (op : string) : bool :=
  match doubles with
  | String a (String b doubles') =>
      if String.eqb op (String a (String b "")) then true
      else containsPair doubles' op
  | _ => false
  end.

(** [op] returns the operator and the input after it. *)
Definition op (singles doubles : string) (s : string)
  : result (string * string) :=
  let* n := nextOpLen s in
  let o := take n s in
  match n, o with
  | 1%nat, String c _ =>
      if containsByte singles c then Ret (o, drop n s) else Ret ("", s)
  | 2%nat, _ =>
      if containsPair doubles o then Ret (o, drop n s) else Ret ("", s)
  | _, _ => Ret ("", s)
  end.

Definition isDigit (c : ascii) : bool :=
  (48 <=? byteOf c) && (byteOf c <=? 57).

Definition isAlpha (c : ascii) (digitOK : bool) : bool :=
  let b := byteOf c in
  if ((97 <=? b) && (b <=? 122)) || ((65 <=? b) && (b <=? 90)) || (b =? 95)
  then true
  else digitOK && isDigit c.

Definition remaining (s : string) : string :=
  if negb (isEmpty s) then quote s else "eof".

(** [number]: the loop reads digits while there are some; [n] is an [int]. *)
Fixpoint numberLoop (n : Z) (s : string) : Z * string :=
  match s with
  | EmptyString => (n, s)
  | String c s' =>
      if isDigit c
      then numberLoop (Int.sub (Int.add (Int.mul 10 n) (byteOf c)) 48) s'
      else (n, s)
  end.

Definition number (s : string) : Z * string := numberLoop 0 s.

Fixpoint identifierLoop (acc : string) (s : string) : string * string :=
  match s with
  | EmptyString => (acc, s)
  | String c s' =>
      if isAlpha c (negb (isEmpty acc))
      then identifierLoop (acc +:+ String c "") s'
      else (acc, s)
  end.

Definition identifier (s : string) : string * string := identifierLoop "" s.

(** A parsing function returns a tree and the unread input, panics, or runs
    out of the fuel that bounds the recursion depth of the model. *)
Inductive presult : Type :=
  | POk (e : Expr) (rest : string)
  | PPanic (v : panicValue)
  | POutOfFuel.

Definition pthrow (msg : string) : presult :=
  PPanic (PanicError (errorString msg)).

(** The [for] loop of [parser.parse].  Every iteration consumes an operator,
    so the number of iterations is bounded by the length of the input the
    loop starts with; [n] is that bound. *)
Fixpoint parseLoop (n : nat) (singles doubles : string)
    (nextLevel : string -> presult) (e : Expr) (s : string) : presult :=
  let '(c, s) := peek true s in
  if Ascii.eqb c eof then POk e s
  else
    match op singles doubles s with
    | Panic v => PPanic v
    | Ret (o, s) =>
        if isEmpty o then POk e s
        else
          match n with
          | O => POutOfFuel
          | S n' =>
              match nextLevel s with
              | POk r rest =>
                  parseLoop n' singles doubles nextLevel (binaryNode o e r) rest
              | PPanic v => PPanic v
              | POutOfFuel => POutOfFuel
              end
          end
    end.

Definition parse (singles doubles : string)
    (nextLevel : string -> presult) (s : string) : presult :=
  match nextLevel s with
  | POk e rest => parseLoop (String.length rest) singles doubles nextLevel e rest
  | PPanic v => PPanic v
  | POutOfFuel => POutOfFuel
  end.

(** The five precedence levels, over the function that parses a factor. *)
Section Levels.
Variable factor : string -> presult.

Definition termOver : string -> presult := parse "*/%&" ">><<&^" factor.
Definition exprOver : string -> presult := parse "+-|^!" "" termOver.
Definition cmpListOver : string -> presult :=
  parse "+-|^!><" "==!=>=<=" exprOver.
Definition andListOver : string -> presult := parse "" "&&" cmpListOver.
Definition orListOver : string -> presult := parse "" "||" andListOver.
End Levels.

(** [factor] calls itself after a unary operator and [orList] after an
    opening parenthesis, each time after consuming a byte; [fuel] bounds the
    depth of these calls. *)
Fixpoint factor (fuel : nat) (s : string) : presult :=
  match fuel with
  | O => POutOfFuel
  | S fuel' =>
      let '(c, s) := peek true s in
      if Ascii.eqb c eof then pthrow "unexpected eof"
      else if isDigit c then
        let '(n, s) := number s in POk (numLeaf n) s
      else if isAlpha c false then
        let '(x, s) := identifier s in POk (identLeaf x) s
      else if starts "+-^!" s then
        let o := take 1 s in
        let '(_, s) := next false s in
        match factor fuel' s with
        | POk r rest => POk (unaryNode o r) rest
        | PPanic v => PPanic v
        | POutOfFuel => POutOfFuel
        end
      else if Ascii.eqb c "(" then
        let '(_, s) := next false s in
        match orListOver (factor fuel') s with
        | POk e s =>
            let '(c, s) := next true s in
            if negb (Ascii.eqb c ")")
            then pthrow ("unclosed paren at " +:+ remaining s)
            else POk e s
        | PPanic v => PPanic v
        | POutOfFuel => POutOfFuel
        end
      else pthrow ("bad expression at " +:+ remaining s)
  end.

Definition term (fuel : nat) : string -> presult := termOver (factor fuel).
Definition expr (fuel : nat) : string -> presult := exprOver (factor fuel).
Definition cmpList (fuel : nat) : string -> presult :=
  cmpListOver (factor fuel).
Definition andList (fuel : nat) : string -> presult :=
  andListOver (factor fuel).
Definition orList (fuel : nat) : string -> presult := orListOver (factor fuel).

(** [recoverer]: a panic whose value is an [error] becomes the error result;
    any other panic goes on. *)
Definition recoverer {A : Type} (partial : A) (v : panicValue) : outcome A :=
  match v with
  | PanicError err => Return partial (Some err)
  | PanicString _ => Crash v
  end.

(** Depth of recursion that suffices for an input: one more than its
    length. *)
Definition parseFuel (s : string) : nat := S (String.length s).

(** [Parse].  The named result [expr] is nil until [orList] returns; when
    the check for trailing input throws, [expr] already holds the tree. *)
Definition Parse (s : string) : outcome Expr :=
  match orList (parseFuel s) s with
  | POk e rest =>
      let '(c, rest) := peek true rest in
      if negb (Ascii.eqb c eof)
      then recoverer e
             (PanicError (errorString ("syntax error at " +:+ remaining rest)))
      else Return e None
  | PPanic v => recoverer Nil v
  | POutOfFuel => Diverge
  end.

(** ** The evaluator *)

Definition ErrorMode : Type := Z.
Definition ReturnError : ErrorMode := 0.
Definition ReturnZero : ErrorMode := 1.

Definition ErrorMode_error (errMode : ErrorMode) (msg : string) : result Z :=
  if errMode =? ReturnZero then Ret 0
  else if errMode =? ReturnError then throw msg
  else Panic (PanicString "bad error mode").

Definition toInt (t : bool) : Z := if t then 1 else 0.

Definition evalBinary (errMode : ErrorMode) (o : string) (left right : Z)
  : result Z :=
  if String.eqb o "+" then Ret (Int.add left right)
  else if String.eqb o "-" then Ret (Int.sub left right)
  else if String.eqb o "*" then Ret (Int.mul left right)
  else if String.eqb o "/" then
    if right =? 0 then ErrorMode_error errMode "division by zero"
    else Ret (Int.quo left right)
  else if String.eqb o "%" then
    if right =? 0 then ErrorMode_error errMode "modulo by zero"
    else Ret (Int.rem left right)
  else if String.eqb o "&" then Ret (Z.land left right)
  else if String.eqb o "|" then Ret (Z.lor left right)
  else if String.eqb o "^" then Ret (Z.lxor left right)
  else if String.eqb o "&^" then Ret (Z.ldiff left right)
  else if String.eqb o ">>" then
    if right <? 0 then ErrorMode_error errMode "negative right shift amount"
    else Ret (Int.shr left right)
  else if String.eqb o "<<" then
    if right <? 0 then ErrorMode_error errMode "negative left shift amount"
    else Ret (Int.shl left right)
  else if String.eqb o "==" then Ret (toInt (left =? right))
  else if String.eqb o "!=" then Ret (toInt (negb (left =? right)))
  else if String.eqb o ">=" then Ret (toInt (left >=? right))
  else if String.eqb o "<=" then Ret (toInt (left <=? right))
  else if String.eqb o "<" then Ret (toInt (left <? right))
  else if String.eqb o ">" then Ret (toInt (left >? right))
  else if String.eqb o "||" then
    Ret (toInt (negb (left =? 0) || negb (right =? 0)))
  else if String.eqb o "&&" then
    Ret (toInt (negb (left =? 0) && negb (right =? 0)))
  else throw ("unknown binary operator (can't happen) " +:+ o).

Definition evalUnary (o : string) (right : Z) : result Z :=
  if String.eqb o "+" then Ret right
  else if String.eqb o "-" then Ret (Int.neg right)
  else if String.eqb o "^" then Ret (Z.lnot right)
  else if String.eqb o "!" then Ret (toInt (right =? 0))
  else throw ("unknown unary operator (can't happen) " +:+ o).

Fixpoint eval (e : Expr) (vars : gmap string Z) (errMode : ErrorMode)
  : result Z :=
  match e with
  | Nil => Ret 0
  | Node o l r ident num =>
      if isEmpty o then
        if negb (isEmpty ident) then
          match vars !! ident with
          | None => ErrorMode_error errMode ("undefined variable " +:+ ident)
          | Some n => Ret n
          end
        else Ret num
      else if negb (isNil l) && negb (isNil r) then
        let* left := eval l vars errMode in
        let* right := eval r vars errMode in
        evalBinary errMode o left right
      else if negb (isNil r) then
        let* right := eval r vars errMode in
        evalUnary o right
      else throw "unrecognized expression: can't happen"
  end.

(** [Eval]: the result is still zero when a panic is recovered. *)
Definition Eval (e : Expr) (vars : gmap string Z) (errMode : ErrorMode)
  : outcome Z :=
  match eval e vars errMode with
  | Ret result => Return result None
  | Panic v => recoverer 0 v
  end.

(** ** Shapes of trees *)

(** The binary operators of the package's grammar and of [eval]. *)
Definition binaryOps : list string :=
  ["||"; "&&"; "=="; "!="; ">"; "<"; ">="; "<="; "+"; "-"; "|"; "^";
   "*"; "/"; "%"; "<<"; ">>"; "&"; "&^"].

Definition unaryOps : list string := ["+"; "-"; "^"; "!"].

(** The operators [parser.parse] can put in a binary node: the strings its
    five call sites pass as [singles] and [doubles]. *)
Definition parserBinaryOps : list string := "!" :: binaryOps.

Fixpoint allAlpha (s : string) : bool :=
  match s with
  | EmptyString => true
  | String c s' => isAlpha c true && allAlpha s'
  end.

Definition validIdent (x : string) : bool :=
  match x with
  | EmptyString => false
  | String c x' => isAlpha c false && allAlpha x'
  end.

Section Shape.
Variable binops : list string.
Variable numOK : Z -> Prop.

(** A tree whose every node is a numeric leaf, an identifier leaf, a unary
    node or a binary node. *)
Inductive Shaped : Expr -> Prop :=
  | ShapedNum n : numOK n -> Shaped (numLeaf n)
  | ShapedIdent x : validIdent x = true -> Shaped (identLeaf x)
  | ShapedUnary o r : In o unaryOps -> Shaped r -> Shaped (unaryNode o r)
  | ShapedBinary o l r :
      In o binops -> Shaped l -> Shaped r -> Shaped (binaryNode o l r).
End Shape.

(** The trees of the data model: binary operators from [binaryOps]. *)
Definition WellFormed : Expr -> Prop := Shaped binaryOps (fun _ => True).

(** The trees [Parse] builds. *)
Definition ParserTree : Expr -> Prop := Shaped parserBinaryOps Int.inRange.

(** The shape of a tree, decided. *)
Fixpoint shaped (ops : list string) (numOK : Z -> bool) (e : Expr) : bool :=
  match e with
  | Nil => false
  | Node o l r ident num =>
      if isEmpty o then
        isNil l && isNil r
        && (if isEmpty ident then numOK num
            else validIdent ident && (num =? 0))
      else
        isEmpty ident && (num =? 0)
        && (if isNil l then existsb (String.eqb o) unaryOps && shaped ops numOK r
            else existsb (String.eqb o) ops
                 && shaped ops numOK l && shaped ops numOK r)
  end.


(** The operators of the binary nodes (both children present) of a tree. *)
Fixpoint binaryOpsOf (e : Expr) : list string :=
  match e with
  | Nil => []
  | Node o l r _ _ =>
      (if negb (isNil l) && negb (isNil r) then [o] else [])
        ++ binaryOpsOf l ++ binaryOpsOf r
  end.

(** The values of the numeric leaves of a tree: the nodes [eval] reads
    [num] from. *)
Fixpoint numLeaves (e : Expr) : list Z :=
  match e with
  | Nil => []
  | Node o l r ident num =>
      (if isEmpty o && isEmpty ident then [num] else [])
        ++ numLeaves l ++ numLeaves r
  end.

(** ** Integer literals as numbers *)

(** The number a run of decimal digits at the start of [s] denotes, after
    the digits already read have given [acc]. *)
Fixpoint digitsValue (acc : Z) (s : string) : Z :=
  match s with
  | EmptyString => acc
  | String c s' =>
      if isDigit c then digitsValue (10 * acc + (byteOf c - 48)) s' else acc
  end.

(** Every run of decimal digits in [s] denotes a number that fits an
    [int]. *)
Fixpoint literalsFit (s : string) : bool :=
  match s with
  | EmptyString => true
  | String _ s' => (digitsValue 0 s <=? Int.maxInt) && literalsFit s'
  end.

(** ** Evaluation as the specification words it

    A numeric leaf is its value; an identifier is looked up and its absence
    is a failure; a unary node evaluates its child and applies the
    operator; a binary node evaluates the left child, then the right child,
    then applies the operator, where [/] and [%] fail on a zero right
    operand and the shifts fail on a negative one.  The first failure is
    the result.  The specification gives no meaning to an operator outside
    its sets; [specBinary] and [specUnary] answer 0 there. *)


Definition specUnary (o : string) (a : Z) : Z :=
  if String.eqb o "+" then a
  else if String.eqb o "-" then Int.neg a
  else if String.eqb o "^" then Z.lnot a
  else if String.eqb o "!" then toInt (a =? 0)
  else 0.



(** ** Invariants of the parser *)

(** [Suffix t s]: [t] is what is left of [s] after some bytes were read. *)
Inductive Suffix : string -> string -> Prop :=
  | Suffix_refl s : Suffix s s
  | Suffix_cons c s t : Suffix t s -> Suffix t (String c s).

(** The operators a level accepts, from its [singles] and [doubles]. *)
Definition accepts (singles doubles : string) (o : string) : Prop :=
  (exists c, o = String c EmptyString /\ containsByte singles c = true)
  \/ containsPair doubles o = true.

(** What holds of a tree parsed from the input [s]. *)
Definition Parsed (s : string) (e : Expr) : Prop :=
  ParserTree e
  /\ (literalsFit s = true -> Forall (fun n => 0 <= n) (numLeaves e)).

(** A parsing function that, when it succeeds, has consumed at least one
    byte of its input and built a tree of the parser's shape. *)
Definition Sound (f : string -> presult) : Prop :=
  forall s e rest, f s = POk e rest ->
    Suffix rest s /\ (String.length rest < String.length s)%nat /\ Parsed s e.

(** A parsing function that does not run out of fuel on inputs shorter than
    [bound]. *)
Definition Fueled (bound : nat) (f : string -> presult) : Prop :=
  forall s, (String.length s < bound)%nat -> f s <> POutOfFuel.

(** Two parsing functions that agree on inputs shorter than [bound]. *)
Definition Agree (bound : nat) (f g : string -> presult) : Prop :=
  forall s, (String.length s < bound)%nat -> f s = g s.

(** ** Rendering and parsing again *)

(** What can follow a rendered subtree inside a rendered tree: the end of
    the string, a space or a closing parenthesis. *)
Definition stopper (k : string) : bool :=
  match k with
  | EmptyString => true
  | String c _ => Ascii.eqb c " " || Ascii.eqb c ")"
  end.

(** Twice the height of a tree bounds the depth of the calls of [factor]
    that parse its rendering. *)
Fixpoint height (e : Expr) : nat :=
  match e with
  | Nil => O
  | Node _ l r _ _ => S (S (Nat.max (height l) (height r)))
  end.

(** The trees that hold no negative literal. *)
Definition Renderable : Expr -> Prop :=
  Shaped parserBinaryOps (fun n => 0 <= n <= Int.maxInt).

(** ** Further notions *)

(** The identifiers [eval] looks up in a tree, along the nodes it visits. *)
Fixpoint identsOf (e : Expr) : list string :=
  match e with
  | Nil => []
  | Node o l r ident _ =>
      if isEmpty o then (if isEmpty ident then [] else [ident])
      else if negb (isNil l) && negb (isNil r) then identsOf l ++ identsOf r
      else if negb (isNil r) then identsOf r
      else []
  end.

(** The operators whose result is a truth value. *)
Definition truthOps : list string :=
  ["=="; "!="; ">="; "<="; "<"; ">"; "||"; "&&"].

(** The two-byte operators [nextOpLen] knows. *)
Definition twoByteOps : list string :=
  ["=="; "!="; ">="; "<="; "&&"; "||"; "<<"; ">>"; "&^"].

Fixpoint allDigits (s : string) : bool :=
  match s with
  | EmptyString => true
  | String c s' => isDigit c && allDigits s'
  end.

(** The errors that come out of [orList]: the three messages of [factor]
    and the run-time error of [nextOpLen]. *)
Definition factorError (err : error) : Prop :=
  err = errorString "unexpected eof"
  \/ (exists c t,
        err = errorString ("bad expression at " +:+ quote (String c t)))
  \/ (exists rest,
        err = errorString ("unclosed paren at " +:+ remaining rest))
  \/ err = runtimeError "index out of range [1] with length 1".

(** A parsing function whose panics carry one of these errors. *)
Definition Throws (f : string -> presult) : Prop :=
  forall s v, f s = PPanic v -> exists err, v = PanicError err /\ factorError err.

(** Trees that can be rendered and parsed back, decided. *)
Definition renderable (e : Expr) : bool :=
  shaped parserBinaryOps (fun n => (0 <=? n) && (n <=? Int.maxInt)) e.

(** ** Entry points for examples *)

Definition render (s : string) : option string :=
  match Parse s with
  | Return e None => Some (String_ e)
  | _ => None
  end.

Definition parseError (s : string) : option string :=
  match Parse s with
  | Return _ (Some err) => Some (Error err)
  | _ => None
  end.

(** Parse, then evaluate with the variables [x] and [y] bound. *)
Definition evalWith (x y : Z) (errMode : ErrorMode) (s : string)
  : option (outcome Z) :=
  match Parse s with
  | Return e None => Some (Eval e (<["x" := x]> (<["y" := y]> ∅)) errMode)
  | _ => None
  end.

(** The tables of the package's tests. *)
Definition parseTests : list (string * string) :=
  [ ("3", "3"); ("x", "x"); ("x_9", "x_9");
    ("-3", "(-3)"); ("+3", "(+3)"); ("!1", "(!1)"); ("^1", "(^1)");
    ("x * y", "(x * y)"); ("x / y", "(x / y)"); ("x % y", "(x % y)");
    ("x << y", "(x << y)"); ("x >> y", "(x >> y)"); ("x & y", "(x & y)");
    ("x &^ y", "(x &^ y)"); ("x + y", "(x + y)"); ("x - y", "(x - y)");
    ("x | y", "(x | y)"); ("x ^ y", "(x ^ y)");
    ("x == y", "(x == y)"); ("x != y", "(x != y)"); ("x < y", "(x < y)");
    ("x <= y", "(x <= y)"); ("x > y", "(x > y)"); ("x >= y", "(x >= y)");
    ("x && y", "(x && y)"); ("x || y", "(x || y)");
    ("x || y || z", "((x || y) || z)"); ("x && y && z", "((x && y) && z)");
    ("x && y || z", "((x && y) || z)"); ("x || y && z", "(x || (y && z))");
    ("x == y == z", "((x == y) == z)"); ("x != y != z", "((x != y) != z)");
    ("x > y > z", "((x > y) > z)"); ("x >= y >= z", "((x >= y) >= z)");
    ("x < y < z", "((x < y) < z)"); ("x <= y <= z", "((x <= y) <= z)");
    ("+x + y", "((+x) + y)"); ("x + +y", "(x + (+y))");
    ("-x - y", "((-x) - y)"); ("x - -y", "(x - (-y))");
    ("^x + y", "((^x) + y)"); ("x + ^y", "(x + (^y))");
    ("!x + y", "((!x) + y)"); ("x + !y", "(x + (!y))");
    ("+x * y", "((+x) * y)"); ("x * +y", "(x * (+y))");
    ("^x * y", "((^x) * y)"); ("x * ^y", "(x * (^y))");
    ("!x * y", "((!x) * y)"); ("x * !y", "(x * (!y))");
    ("x * y * z", "((x * y) * z)"); ("x * y / z", "((x * y) / z)");
    ("x / y * z", "((x / y) * z)"); ("x % y / z", "((x % y) / z)");
    ("x / y % z", "((x / y) % z)"); ("x >> y / z", "((x >> y) / z)");
    ("x / y >> z", "((x / y) >> z)"); ("x << y / z", "((x << y) / z)");
    ("x / y << z", "((x / y) << z)"); ("x & y / z", "((x & y) / z)");
    ("x / y & z", "((x / y) & z)"); ("x &^ y / z", "((x &^ y) / z)");
    ("x / y &^ z", "((x / y) &^ z)");
    ("x + y + z", "((x + y) + z)"); ("x + y - z", "((x + y) - z)");
    ("x - y + z", "((x - y) + z)"); ("x + y | z", "((x + y) | z)");
    ("x | y + z", "((x | y) + z)"); ("x + y ^ z", "((x + y) ^ z)");
    ("x * y + z", "((x * y) + z)"); ("x + y * z", "(x + (y * z))");
    ("(x < y && z < 3)", "((x < y) && (z < 3))");
    ("(x < y && z || 1)", "(((x < y) && z) || 1)");
    ("(u == v && x == y || w == z)", "(((u == v) && (x == y)) || (w == z))");
    ("(u == v*3 && x == y-2 || w == !z)",
     "(((u == (v * 3)) && (x == (y - 2))) || (w == (!z)))") ].

Definition parseErrorTests : list (string * string) :=
  [ ("x x", "syntax error at " +:+ quote "x");
    ("(x + ", "unexpected eof");
    ("(x + 1", "unclosed paren at eof");
    ("(x + 1))", "syntax error at " +:+ quote ")");
    ("x + >4", "bad expression at " +:+ quote ">4");
    ("x @ 4", "syntax error at " +:+ quote "@ 4") ].

Definition evalTests : list (Z * Z * string * Z) :=
  [ (0, 0, "3", 3); (0, 0, "3+4", 7); (10, 0, "x", 10); (10, 20, "y", 20);
    (0, 0, "+3", 3); (0, 0, "-3", -3); (0, 0, "!0", 1); (0, 0, "!3", 0);
    (0, 0, "^0", -1); (0, 0, "^1", -2); (7, 0, "+x", 7); (7, 0, "-x", -7);
    (7, 3, "x * y", 21); (7, 3, "x / y", 2); (7, 0, "x / y", 0);
    (7, 3, "x % y", 1); (7, 0, "x % y", 0); (7, 3, "x << y", 56);
    (7, 1, "x >> y", 3); (7, 4, "x & y", 4); (17, 5, "x &^ y", 16);
    (7, 3, "x + y", 10); (7, 2, "x - y", 5);
    (4, 2, "x | y", 6); (7, 7, "x ^ y", 0); (14, 7, "x ^ y", 9);
    (14, 7, "x &^ y", 8); (144, 3, "x >> y", 18); (14, 1, "x << y", 28);
    (14, 7, "x == y", 0); (14, 7, "x != y", 1); (14, 7, "x > y", 1);
    (7, 14, "x > y", 0); (14, 7, "x < y", 0); (7, 14, "x < y", 1);
    (14, 7, "x >= y", 1); (7, 14, "x >= y", 0); (14, 14, "x >= y", 1);
    (14, 7, "x <= y", 0); (14, 14, "x <= y", 1); (7, 14, "x <= y", 1);
    (4, 4, "x > y || y == x", 1); (4, 4, "x > y && y == x", 0);
    (5, 4, "x > y && y == 4", 1); (5, 4, "x*x + y*y", 41);
    (4, 0, "x / 0", 0); (4, 0, "x % 0", 0); (4, 0, "x << -1", 0);
    (4, 0, "x >> -1", 0); (4, 0, "v >> -1", 0);
    (0, 0, "zz", 0); (0, 0, "4 + zz", 4); (1, 0, "3 + x / y", 3);
    (1, 0, "3 + x % y", 3); (1, -3, "3*x + x << y", 3);
    (1, -3, "3*y + x >> y", -9) ].

Definition evalErrorTests : list (string * string) :=
  [ ("y", "undefined variable y"); ("x / 0", "division by zero");
    ("x % 0", "modulo by zero"); ("x << -1", "negative left shift amount");
    ("x >> -1", "negative right shift amount") ].

Definition optionEqb (a : option string) (b : string) : bool :=
  match a with
  | Some s => String.eqb s b
  | None => false
  end.

Definition checkParse (t : string * string) : bool :=
  optionEqb (render (fst t)) (snd t) && optionEqb (render (snd t)) (snd t).

Definition checkParseError (t : string * string) : bool :=
  optionEqb (parseError (fst t)) (snd t).

Definition checkEval (t : Z * Z * string * Z) : bool :=
  let '(x, y, s, want) := t in
  match evalWith x y ReturnZero s with
  | Some (Return got None) => got =? want
  | _ => false
  end.

Definition checkEvalError (t : string * string) : bool :=
  match Parse (fst t) with
  | Return e None =>
      match Eval e (<["x" := 1]> ∅) ReturnError with
      | Return _ (Some err) => String.eqb (Error err) (snd t)
      | _ => false
      end
  | _ => false
  end.

(** ** The package's tests hold of the model *)

Example TestParse : forallb checkParse parseTests = true.
Proof. vm_compute. reflexivity. Qed.

Example TestParseError : forallb checkParseError parseErrorTests = true.
Proof. vm_compute. reflexivity. Qed.

Example TestEval : forallb checkEval evalTests = true.
Proof. vm_compute. reflexivity. Qed.

Example TestEvalError : forallb checkEvalError evalErrorTests = true.
Proof. vm_compute. reflexivity. Qed.

(** ** The evaluator against the specification *)

Lemma Shaped_not_Nil binops numOK e : Shaped binops numOK e -> isNil e = false.
Proof. destruct 1; reflexivity. Qed.

Lemma validIdent_not_empty x : validIdent x = true -> isEmpty x = false.
Proof. destruct x; [discriminate | reflexivity]. Qed.

Lemma Shaped_impl (ops ops' : list string) (P Q : Z -> Prop) e :
  (forall o, In o ops -> In o ops') -> (forall n, P n -> Q n) ->
  Shaped ops P e -> Shaped ops' Q e.
Proof.
  intros Hops HPQ. induction 1; constructor; auto.
Qed.

(** Unfolding of [eval] at a node with an operator and both children. *)
Lemma eval_binary o l r ident num vars errMode :
  isEmpty o = false -> isNil l = false -> isNil r = false ->
  eval (Node o l r ident num) vars errMode =
  bind (eval l vars errMode) (fun left =>
  bind (eval r vars errMode) (fun right =>
  evalBinary errMode o left right)).
Proof.
  intros Ho Hl Hr. cbn [eval]. rewrite Ho, Hl, Hr. reflexivity.
Qed.

Lemma eval_unary o r ident num vars errMode :
  isEmpty o = false -> isNil r = false ->
  eval (Node o Nil r ident num) vars errMode =
  bind (eval r vars errMode) (fun right => evalUnary o right).
Proof.
  intros Ho Hr. cbn [eval]. rewrite Ho, Hr. reflexivity.
Qed.


Lemma evalUnary_spec o a :
  In o unaryOps -> evalUnary o a = Ret (specUnary o a).
Proof.
  unfold unaryOps. cbn [In].
  intros H. repeat (destruct H as [<- | H]); try contradiction; reflexivity.
Qed.

Lemma In_binaryOps_not_empty o : In o parserBinaryOps -> isEmpty o = false.
Proof.
  unfold parserBinaryOps, binaryOps. cbn [In].
  intros H. repeat (destruct H as [<- | H]); try contradiction; reflexivity.
Qed.

Lemma In_unaryOps_not_empty o : In o unaryOps -> isEmpty o = false.
Proof.
  unfold unaryOps. cbn [In].
  intros H. repeat (destruct H as [<- | H]); try contradiction; reflexivity.
Qed.




(** In [ReturnZero] mode a well-formed tree always evaluates to a value. *)
Lemma eval_ReturnZero_WellFormed vars e :
  WellFormed e -> exists v, eval e vars ReturnZero = Ret v.
Proof.
  unfold WellFormed. induction 1 as [n _ | x Hx | o r Ho Hr IHr | o l r Ho Hl IHl Hr IHr].
  - eexists; reflexivity.
  - cbn. rewrite (validIdent_not_empty _ Hx). cbn.
    destruct (vars !! x); eexists; reflexivity.
  - unfold unaryNode.
    rewrite eval_unary by eauto using In_unaryOps_not_empty, Shaped_not_Nil.
    destruct IHr as [v ->]. cbn [bind]. rewrite (evalUnary_spec _ _ Ho). eauto.
  - unfold binaryNode.
    assert (Ho' : isEmpty o = false)
      by (apply In_binaryOps_not_empty; right; exact Ho).
    rewrite eval_binary by eauto using Shaped_not_Nil.
    destruct IHl as [a ->], IHr as [b ->]. cbn [bind].
    revert Ho. unfold binaryOps. cbn [In]. intros H.
    repeat (destruct H as [<- | H]); try contradiction;
      cbv beta delta [evalBinary] iota; cbn [String.eqb Ascii.eqb Bool.eqb];
      eauto;
      match goal with
      | |- context [if ?c then _ else _] => destruct c; eauto
      end.
Qed.

(** ** Machine integers: wrap-around *)

Lemma wrap_inRange z : Int.inRange (Int.wrap z).
Proof.
  unfold Int.inRange, Int.wrap, Int.minInt, Int.maxInt.
  assert (H := Z.mod_pos_bound (z + Int.half) Int.modulus eq_refl).
  change Int.modulus with (2 * Int.half) in *. lia.
Qed.

Lemma wrap_small z : Int.inRange z -> Int.wrap z = z.
Proof.
  unfold Int.inRange, Int.wrap, Int.minInt, Int.maxInt. intros H.
  change Int.modulus with (2 * Int.half) in *.
  rewrite Z.mod_small by lia. lia.
Qed.

Lemma wrap_eqm a b :
  (a mod Int.modulus = b mod Int.modulus) -> Int.wrap a = Int.wrap b.
Proof.
  intros H. unfold Int.wrap. f_equal.
  rewrite (Z.add_mod a), (Z.add_mod b), H by discriminate. reflexivity.
Qed.

Lemma wrap_mod a : Int.wrap a mod Int.modulus = a mod Int.modulus.
Proof.
  unfold Int.wrap.
  rewrite Zminus_mod, Zmod_mod, <- Zminus_mod.
  f_equal. lia.
Qed.

Lemma wrap_add_l a b : Int.wrap (Int.wrap a + b) = Int.wrap (a + b).
Proof.
  apply wrap_eqm. rewrite Z.add_mod, wrap_mod, <- Z.add_mod by discriminate.
  reflexivity.
Qed.

Lemma wrap_sub_l a b : Int.wrap (Int.wrap a - b) = Int.wrap (a - b).
Proof.
  apply wrap_eqm. rewrite Zminus_mod, wrap_mod, <- Zminus_mod. reflexivity.
Qed.

Lemma wrap_mul_r a b : Int.wrap (a * Int.wrap b) = Int.wrap (a * b).
Proof.
  apply wrap_eqm. rewrite Z.mul_mod, wrap_mod, <- Z.mul_mod by discriminate.
  reflexivity.
Qed.

(** ** Literals: [number] against [digitsValue] *)

Lemma isDigit_byte c : isDigit c = true -> 0 <= byteOf c - 48 <= 9.
Proof. unfold isDigit. lia. Qed.

Lemma digitsValue_ge acc s : 0 <= acc -> acc <= digitsValue acc s.
Proof.
  revert acc. induction s as [| c s IH]; intros acc Hacc; cbn; [lia|].
  destruct (isDigit c) eqn:Hc; [|lia].
  apply isDigit_byte in Hc.
  specialize (IH (10 * acc + (byteOf c - 48))). lia.
Qed.

(** One step of [number]'s loop computes modulo [2^64]. *)
Lemma number_step a c :
  Int.sub (Int.add (Int.mul 10 (Int.wrap a)) (byteOf c)) 48
  = Int.wrap (10 * a + (byteOf c - 48)).
Proof.
  unfold Int.sub, Int.add, Int.mul.
  rewrite wrap_mul_r, wrap_add_l, wrap_sub_l. f_equal. lia.
Qed.

Lemma numberLoop_value a s :
  fst (numberLoop (Int.wrap a) s) = Int.wrap (digitsValue a s).
Proof.
  revert a. induction s as [| c s IH]; intros a; cbn; [reflexivity|].
  destruct (isDigit c); [|reflexivity].
  rewrite number_step. apply IH.
Qed.

Lemma numberLoop_rest n m s : snd (numberLoop n s) = snd (numberLoop m s).
Proof.
  revert n m. induction s as [| c s IH]; intros n m; cbn; [reflexivity|].
  destruct (isDigit c); [apply IH | reflexivity].
Qed.

Lemma number_value s : fst (number s) = Int.wrap (digitsValue 0 s).
Proof. apply (numberLoop_value 0). Qed.

(** A literal that fits is read as the number it denotes. *)
Lemma number_fits s :
  digitsValue 0 s <= Int.maxInt -> fst (number s) = digitsValue 0 s.
Proof.
  intros H. rewrite number_value. apply wrap_small.
  pose proof (digitsValue_ge 0 s). unfold Int.inRange, Int.minInt, Int.half, Int.width.
  cbn. cbn in H. lia.
Qed.

(** ** Suffixes of the input *)

Lemma Suffix_trans a b c : Suffix a b -> Suffix b c -> Suffix a c.
Proof. intros Hab Hbc. induction Hbc; [assumption | constructor; auto]. Qed.

Lemma Suffix_length t s : Suffix t s -> (String.length t <= String.length s)%nat.
Proof. induction 1; cbn; lia. Qed.

Lemma Suffix_tail c t s : Suffix (String c t) s -> Suffix t s.
Proof.
  intros H. eapply Suffix_trans; [|exact H]. constructor. constructor.
Qed.

Lemma Suffix_tail_length c t s :
  Suffix (String c t) s -> (String.length t < String.length s)%nat.
Proof. intros H. apply Suffix_length in H. cbn in H. lia. Qed.

Lemma literalsFit_Suffix t s :
  Suffix t s -> literalsFit s = true -> literalsFit t = true.
Proof.
  induction 1 as [| c s t _ IH]; [auto|].
  cbn [literalsFit]. intros H. apply andb_true_iff in H. tauto.
Qed.

Lemma literalsFit_head s :
  literalsFit s = true -> digitsValue 0 s <= Int.maxInt.
Proof.
  destruct s as [| c s].
  - intros _. cbn. discriminate.
  - cbn [literalsFit]. intros H. apply andb_true_iff in H. lia.
Qed.

(** ** The parser: what a successful step leaves behind *)

Lemma skip_Suffix s : Suffix (skip s) s.
Proof.
  induction s as [| c s IH]; cbn [skip]; [constructor|].
  destruct (starts whitespace (String c s)); constructor. exact IH.
Qed.

Lemma skip_not_space s c t :
  skip s = String c t -> containsByte whitespace c = false.
Proof.
  induction s as [| d s IH]; cbn [skip]; [discriminate|].
  destruct (starts whitespace (String d s)) eqn:E; [exact IH|].
  intros [= -> ->]. exact E.
Qed.

Lemma skip_id c t : containsByte whitespace c = false -> skip (String c t) = String c t.
Proof. intros H. cbn [skip starts]. rewrite H. reflexivity. Qed.

Lemma peek_true_cases s :
  (skip s = EmptyString /\ peek true s = (eof, EmptyString))
  \/ (exists c t, skip s = String c t /\ peek true s = (c, String c t)).
Proof.
  unfold peek. destruct (skip s) as [| c t]; [left | right]; eauto.
Qed.

Lemma next_true_cases s :
  (skip s = EmptyString /\ next true s = (eof, EmptyString))
  \/ (exists c t, skip s = String c t /\ next true s = (c, t)).
Proof.
  unfold next. destruct (skip s) as [| c t]; [left | right]; eauto.
Qed.

Lemma append_cons c s t : String c s +:+ t = String c (s +:+ t).
Proof. reflexivity. Qed.

Lemma append_empty_l t : EmptyString +:+ t = t.
Proof. reflexivity. Qed.

Lemma take_drop_length n s :
  (n <= String.length s)%nat ->
  String.length (take n s) = n
  /\ (String.length (drop n s) + n = String.length s)%nat
  /\ Suffix (drop n s) s.
Proof.
  revert s. induction n as [| n IH]; intros s Hn.
  - destruct s; cbn; repeat split; try lia; constructor.
  - destruct s as [| c s]; cbn in Hn; [lia|].
    destruct (IH s) as (H1 & H2 & H3); [lia|].
    cbn. repeat split; try lia. constructor. exact H3.
Qed.

Lemma maybe_bound extra s :
  s <> EmptyString ->
  (1 <= maybe extra s <= 2)%nat /\ (maybe extra s <= String.length s)%nat.
Proof.
  destruct s as [| c [| c1 s]]; [congruence | cbn; lia |].
  intros _. cbn. destruct (containsByte extra c1); lia.
Qed.

Lemma nextOpLen_bound s n :
  nextOpLen s = Ret n -> (n <= 2)%nat /\ (n <= String.length s)%nat.
Proof.
  destruct s as [| c s]; [intros [= <-]; cbn; lia|].
  assert (Hm : forall extra,
    (maybe extra (String c s) <= 2)%nat
    /\ (maybe extra (String c s) <= String.length (String c s))%nat).
  { intros extra. destruct (maybe_bound extra (String c s)); [discriminate | lia]. }
  cbn [nextOpLen].
  destruct (containsByte "+-*/%^" c); [intros [= <-]; cbn; lia|].
  destruct (Ascii.eqb c "<"); [intros [= <-]; apply (Hm "=<")|].
  destruct (Ascii.eqb c ">"); [intros [= <-]; apply (Hm "=>")|].
  destruct (Ascii.eqb c "&"); [intros [= <-]; apply (Hm "&^")|].
  destruct (Ascii.eqb c "|"); [intros [= <-]; apply (Hm "|")|].
  destruct (Ascii.eqb c "!"); [intros [= <-]; apply (Hm "=")|].
  destruct (Ascii.eqb c "="); [|intros [= <-]; cbn; lia].
  destruct (2 <=? len (String c s)) eqn:E.
  - intros [= <-]. unfold len in E. apply Z.leb_le in E. lia.
  - unfold index. destruct (get 1 (String c s)) eqn:G; cbn [bind]; [|discriminate].
    destruct s; cbn in G; [discriminate|].
    unfold len in E. apply Z.leb_gt in E. cbn [String.length] in E. lia.
Qed.

Lemma op_cases singles doubles s o s' :
  op singles doubles s = Ret (o, s') ->
  (o = EmptyString /\ s' = s)
  \/ (accepts singles doubles o /\ Suffix s' s
      /\ (String.length s' < String.length s)%nat
      /\ s = o +:+ s').
Proof.
  unfold op. destruct (nextOpLen s) as [n | v] eqn:Hn; cbn [bind]; [|discriminate].
  destruct (nextOpLen_bound _ _ Hn) as [Hn2 Hlen].
  destruct (take_drop_length n s Hlen) as (Ht & Hd & Hs).
  assert (Happ : forall m t, (m <= String.length t)%nat -> t = take m t +:+ drop m t).
  { clear. induction m as [| m IH]; intros [| c t] Hm; cbn in *; try reflexivity; try lia.
    rewrite append_cons. f_equal. apply IH. lia. }
  specialize (Happ n s Hlen).
  remember (drop n s) as d eqn:Ed. remember (take n s) as o1 eqn:Eo.
  clear Ed Eo Hn.
  destruct n as [| [| [| n]]]; [intros [= <- <-]; auto | | | lia].
  - destruct o1 as [| c o']; [intros [= <- <-]; auto|].
    destruct (containsByte singles c) eqn:Hc; [|intros [= <- <-]; auto].
    intros [= <- <-]. right. repeat split; try assumption; try lia.
    left. exists c. split; [|exact Hc].
    cbn in Ht. destruct o'; [reflexivity | cbn in Ht; lia].
  - destruct (containsPair doubles o1) eqn:Hc; [|intros [= <- <-]; auto].
    intros [= <- <-]. right. repeat split; try assumption; try lia.
    right. exact Hc.
Qed.

Lemma containsPair_pair doubles o :
  containsPair doubles o = true ->
  exists a b, o = String a (String b EmptyString).
Proof.
  enough (H : (containsPair doubles o = true ->
               exists a b, o = String a (String b EmptyString))
              /\ forall c, containsPair (String c doubles) o = true ->
                           exists a b, o = String a (String b EmptyString))
    by apply H.
  induction doubles as [| d doubles [IH1 IH2]].
  - split; [discriminate | intros c; discriminate].
  - split; [apply IH2|].
    intros c. cbn [containsPair].
    destruct (String.eqb o _) eqn:E; [|exact IH1].
    apply String.eqb_eq in E. eauto.
Qed.

Lemma accepts_not_empty singles doubles o :
  accepts singles doubles o -> isEmpty o = false.
Proof.
  intros [(c & -> & _) | H]; [reflexivity|].
  apply containsPair_pair in H as (a & b & ->). reflexivity.
Qed.

Ltac in_list :=
  cbn [In];
  repeat match goal with
         | |- _ \/ _ => first [left; reflexivity | right]
         end;
  try reflexivity.

Ltac accepts_cases H :=
  let c := fresh "c" in
  destruct H as [(c & -> & H) | H];
  [ cbn [containsByte] in H;
    repeat match type of H with
           | (if Ascii.eqb ?a ?d then _ else _) = true =>
               destruct (Ascii.eqb_spec a d); [subst; in_list|]
           end;
    try discriminate
  | cbn [containsPair] in H;
    repeat match type of H with
           | (if String.eqb ?a ?d then _ else _) = true =>
               destruct (String.eqb_spec a d); [subst; in_list|]
           end;
    try discriminate ].

Lemma accepts_term o : accepts "*/%&" ">><<&^" o -> In o parserBinaryOps.
Proof. intros H. unfold parserBinaryOps, binaryOps. accepts_cases H. Qed.

Lemma accepts_expr o : accepts "+-|^!" "" o -> In o parserBinaryOps.
Proof. intros H. unfold parserBinaryOps, binaryOps. accepts_cases H. Qed.

Lemma accepts_cmpList o :
  accepts "+-|^!><" "==!=>=<=" o -> In o parserBinaryOps.
Proof. intros H. unfold parserBinaryOps, binaryOps. accepts_cases H. Qed.

Lemma accepts_andList o : accepts "" "&&" o -> In o parserBinaryOps.
Proof. intros H. unfold parserBinaryOps, binaryOps. accepts_cases H. Qed.

Lemma accepts_orList o : accepts "" "||" o -> In o parserBinaryOps.
Proof. intros H. unfold parserBinaryOps, binaryOps. accepts_cases H. Qed.

Lemma Suffix_empty s : Suffix EmptyString s.
Proof. induction s; constructor; assumption. Qed.

Lemma Parsed_Suffix t s e : Suffix t s -> Parsed t e -> Parsed s e.
Proof.
  intros Hts [Hshape Hnum]. split; [exact Hshape|].
  intros Hfit. apply Hnum. eapply literalsFit_Suffix; eassumption.
Qed.

Lemma Parsed_binary s o l r :
  In o parserBinaryOps -> Parsed s l -> Parsed s r ->
  Parsed s (binaryNode o l r).
Proof.
  intros Ho [Hl Hln] [Hr Hrn]. split.
  - constructor; assumption.
  - intros Hfit. cbn [numLeaves binaryNode].
    rewrite (In_binaryOps_not_empty _ Ho). cbn [andb app].
    apply Forall_app. auto.
Qed.

Lemma Parsed_unary s o r :
  In o unaryOps -> Parsed s r -> Parsed s (unaryNode o r).
Proof.
  intros Ho [Hr Hrn]. split.
  - constructor; assumption.
  - intros Hfit. cbn [numLeaves unaryNode].
    rewrite (In_unaryOps_not_empty _ Ho). cbn [andb app]. auto.
Qed.

Section ParseLevel.
Variables singles doubles : string.
Variable nextLevel : string -> presult.
Hypothesis accepted : forall o, accepts singles doubles o -> In o parserBinaryOps.
Hypothesis nextSound : Sound nextLevel.

Lemma parseLoop_eq n e s :
  parseLoop n singles doubles nextLevel e s =
  let '(c, s) := peek true s in
  if Ascii.eqb c eof then POk e s
  else
    match op singles doubles s with
    | Panic v => PPanic v
    | Ret (o, s) =>
        if isEmpty o then POk e s
        else
          match n with
          | O => POutOfFuel
          | S n' =>
              match nextLevel s with
              | POk r rest =>
                  parseLoop n' singles doubles nextLevel (binaryNode o e r) rest
              | PPanic v => PPanic v
              | POutOfFuel => POutOfFuel
              end
          end
    end.
Proof. destruct n; reflexivity. Qed.

Lemma parseLoop_Sound n : forall s0 e s e' rest,
  Parsed s0 e -> Suffix s s0 ->
  parseLoop n singles doubles nextLevel e s = POk e' rest ->
  Suffix rest s /\ Parsed s0 e'.
Proof.
  induction n as [| n IH]; intros s0 e s e' rest He Hs H;
    rewrite parseLoop_eq in H;
    pose proof (skip_Suffix s) as Hskip;
    (destruct (peek_true_cases s) as [[Hk Hp] | (c & t & Hk & Hp)];
     rewrite Hp in H; rewrite Hk in Hskip;
     [ cbn in H; injection H as <- <-; split; [apply Suffix_empty | exact He] |]);
    (destruct (Ascii.eqb c eof);
     [ injection H as <- <-; split; assumption |]);
    (destruct (op singles doubles (String c t)) as [[o s1] | v] eqn:Hop;
     [| discriminate]);
    (apply op_cases in Hop as [[-> ->] | (Hacc & Hs1 & Hlt & _)];
     [ cbn in H; injection H as <- <-; split; assumption |]);
    rewrite (accepts_not_empty _ _ _ Hacc) in H.
  - discriminate.
  - destruct (nextLevel s1) as [r rest1 | v | ] eqn:Hn; try discriminate.
    apply nextSound in Hn as (Hr1 & _ & Hr).
    assert (Hs1' : Suffix s1 s) by (eapply Suffix_trans; eassumption).
    apply IH with (s0 := s0) in H as [H1 H2].
    + split; [|exact H2].
      eapply Suffix_trans; [exact H1|]. eapply Suffix_trans; eassumption.
    + apply Parsed_binary; auto.
      eapply Parsed_Suffix; [|exact Hr]. eapply Suffix_trans; eassumption.
    + eapply Suffix_trans; [exact Hr1|]. eapply Suffix_trans; eassumption.
Qed.

Lemma parse_Sound : Sound (parse singles doubles nextLevel).
Proof.
  intros s e rest H. unfold parse in H.
  destruct (nextLevel s) as [e1 rest1 | v | ] eqn:Hn; try discriminate.
  apply nextSound in Hn as (Hs1 & Hlt & He1).
  apply parseLoop_Sound with (s0 := s) in H as [H1 H2]; auto.
  repeat split.
  - eapply Suffix_trans; eassumption.
  - apply Suffix_length in H1. lia.
  - apply H2.
  - apply H2.
Qed.

Lemma parseLoop_Fueled bound n : forall e s,
  Fueled bound nextLevel ->
  (String.length s <= n)%nat -> (String.length s < bound)%nat ->
  parseLoop n singles doubles nextLevel e s <> POutOfFuel.
Proof.
  induction n as [| n IH]; intros e s Hf Hn Hb;
    rewrite parseLoop_eq;
    pose proof (Suffix_length _ _ (skip_Suffix s)) as Hskip;
    (destruct (peek_true_cases s) as [[Hk Hp] | (c & t & Hk & Hp)];
     rewrite Hp; rewrite Hk in Hskip; [cbn; discriminate|]);
    (destruct (Ascii.eqb c eof); [discriminate|]);
    (destruct (op singles doubles (String c t)) as [[o s1] | v] eqn:Hop;
     [| discriminate]);
    (apply op_cases in Hop as [[-> ->] | (Hacc & Hs1 & Hlt & _)];
     [cbn; discriminate|]);
    rewrite (accepts_not_empty _ _ _ Hacc).
  - lia.
  - destruct (nextLevel s1) as [r rest1 | v | ] eqn:Hnl; try discriminate.
    + apply nextSound in Hnl as (_ & Hlt1 & _). apply IH; auto; lia.
    + exfalso. apply (Hf s1); [lia | exact Hnl].
Qed.

Lemma parse_Fueled bound :
  Fueled bound nextLevel -> Fueled bound (parse singles doubles nextLevel).
Proof.
  intros Hf s Hb. unfold parse.
  destruct (nextLevel s) as [e1 rest1 | v | ] eqn:Hn; try discriminate.
  - apply nextSound in Hn as (_ & Hlt & _).
    apply parseLoop_Fueled with (bound := bound); auto; lia.
  - exfalso. apply (Hf s); assumption.
Qed.

End ParseLevel.

(** *** Literals and identifiers *)

Lemma numberLoop_Suffix n s : Suffix (snd (numberLoop n s)) s.
Proof.
  revert n. induction s as [| c s IH]; intros n; cbn; [constructor|].
  destruct (isDigit c); [constructor; apply IH | constructor].
Qed.

Lemma number_Sound c t n rest :
  isDigit c = true -> number (String c t) = (n, rest) ->
  Suffix rest (String c t)
  /\ (String.length rest < String.length (String c t))%nat
  /\ Parsed (String c t) (numLeaf n).
Proof.
  intros Hc H.
  assert (Hn : n = fst (number (String c t))) by (rewrite H; reflexivity).
  assert (Hr : rest = snd (number (String c t))) by (rewrite H; reflexivity).
  clear H. unfold number in Hr. cbn [numberLoop] in Hr. rewrite Hc in Hr.
  pose proof (numberLoop_Suffix (Int.sub (Int.add (Int.mul 10 0) (byteOf c)) 48) t)
    as Hs.
  rewrite <- Hr in Hs. repeat split.
  - constructor. exact Hs.
  - apply Suffix_length in Hs. cbn. lia.
  - constructor. subst n. rewrite number_value. apply wrap_inRange.
  - intros Hfit. cbn. constructor; [|constructor].
    subst n. rewrite number_fits by (apply literalsFit_head, Hfit).
    apply (digitsValue_ge 0). lia.
Qed.

Lemma allAlpha_snoc x c :
  allAlpha x = true -> isAlpha c true = true ->
  allAlpha (x +:+ String c EmptyString) = true.
Proof.
  intros Hx Hc. induction x as [| d x IH].
  - rewrite append_empty_l. cbn [allAlpha]. rewrite Hc. reflexivity.
  - rewrite append_cons. cbn [allAlpha] in *.
    apply andb_true_iff in Hx as [Hd Hx]. rewrite Hd. cbn. auto.
Qed.

Lemma validIdent_snoc x c :
  validIdent x = true -> isAlpha c true = true ->
  validIdent (x +:+ String c EmptyString) = true.
Proof.
  destruct x as [| d x]; [discriminate|].
  rewrite append_cons. cbn [validIdent]. intros H Hc.
  apply andb_true_iff in H as [Hd Hx]. rewrite Hd. cbn.
  apply allAlpha_snoc; assumption.
Qed.

Lemma identifierLoop_Sound acc s :
  validIdent acc = true ->
  validIdent (fst (identifierLoop acc s)) = true
  /\ Suffix (snd (identifierLoop acc s)) s.
Proof.
  revert acc. induction s as [| c s IH]; intros acc Hacc; cbn [identifierLoop].
  - split; [exact Hacc | constructor].
  - rewrite (validIdent_not_empty _ Hacc). cbn [negb].
    destruct (isAlpha c true) eqn:Hc.
    + destruct (IH (acc +:+ String c EmptyString)) as [H1 H2].
      { apply validIdent_snoc; assumption. }
      split; [exact H1 | constructor; exact H2].
    + split; [exact Hacc | constructor].
Qed.

Lemma identifier_Sound c t x rest :
  isAlpha c false = true -> identifier (String c t) = (x, rest) ->
  Suffix rest (String c t)
  /\ (String.length rest < String.length (String c t))%nat
  /\ Parsed (String c t) (identLeaf x).
Proof.
  intros Hc H. unfold identifier in H. cbn [identifierLoop isEmpty negb] in H.
  rewrite Hc, append_empty_l in H.
  destruct (identifierLoop_Sound (String c EmptyString) t) as [H1 H2].
  { cbn. rewrite Hc. reflexivity. }
  rewrite H in H1, H2. cbn [fst snd] in H1, H2. repeat split.
  - constructor. exact H2.
  - apply Suffix_length in H2. cbn. lia.
  - constructor. exact H1.
  - intros _. cbn. rewrite (validIdent_not_empty _ H1). cbn. constructor.
Qed.

(** *** The levels and [factor] *)

Lemma orListOver_Sound f : Sound f -> Sound (orListOver f).
Proof.
  intros Hf. unfold orListOver, andListOver, cmpListOver, exprOver, termOver.
  repeat (apply parse_Sound);
    auto using accepts_term, accepts_expr, accepts_cmpList, accepts_andList,
      accepts_orList.
Qed.

Lemma orListOver_Fueled bound f :
  Sound f -> Fueled bound f -> Fueled bound (orListOver f).
Proof.
  intros Hs Hf. unfold orListOver, andListOver, cmpListOver, exprOver, termOver.
  repeat (first [apply parse_Fueled | apply parse_Sound]);
    auto using accepts_term, accepts_expr, accepts_cmpList, accepts_andList,
      accepts_orList.
Qed.

Lemma factor_S fuel s :
  factor (S fuel) s =
  let '(c, s) := peek true s in
  if Ascii.eqb c eof then pthrow "unexpected eof"
  else if isDigit c then
    let '(n, s) := number s in POk (numLeaf n) s
  else if isAlpha c false then
    let '(x, s) := identifier s in POk (identLeaf x) s
  else if starts "+-^!" s then
    let o := take 1 s in
    let '(_, s) := next false s in
    match factor fuel s with
    | POk r rest => POk (unaryNode o r) rest
    | PPanic v => PPanic v
    | POutOfFuel => POutOfFuel
    end
  else if Ascii.eqb c "(" then
    let '(_, s) := next false s in
    match orListOver (factor fuel) s with
    | POk e s =>
        let '(c, s) := next true s in
        if negb (Ascii.eqb c ")")
        then pthrow ("unclosed paren at " +:+ remaining s)
        else POk e s
    | PPanic v => PPanic v
    | POutOfFuel => POutOfFuel
    end
  else pthrow ("bad expression at " +:+ remaining s).
Proof. reflexivity. Qed.

Lemma starts_unary c t :
  starts "+-^!" (String c t) = true -> In (String c EmptyString) unaryOps.
Proof.
  cbn [starts containsByte]. intros H. unfold unaryOps.
  repeat match type of H with
         | (if Ascii.eqb ?a ?d then _ else _) = true =>
             destruct (Ascii.eqb_spec a d); [subst; in_list|]
         end.
  discriminate.
Qed.

Lemma factor_Sound fuel : Sound (factor fuel).
Proof.
  induction fuel as [| fuel IH]; intros s e rest H; [discriminate|].
  rewrite factor_S in H.
  pose proof (skip_Suffix s) as Hskip.
  destruct (peek_true_cases s) as [[Hk Hp] | (c & t & Hk & Hp)];
    rewrite Hp in H; rewrite Hk in Hskip; [discriminate|].
  assert (Hlift : forall e' rest',
    Suffix rest' (String c t)
    /\ (String.length rest' < String.length (String c t))%nat
    /\ Parsed (String c t) e' ->
    Suffix rest' s /\ (String.length rest' < String.length s)%nat /\ Parsed s e').
  { intros e' rest' (H1 & H2 & H3). repeat split.
    - eapply Suffix_trans; eassumption.
    - apply Suffix_length in Hskip. lia.
    - apply H3.
    - intros Hfit. apply H3. eapply literalsFit_Suffix; eassumption. }
  apply Hlift. clear Hlift Hskip Hk Hp.
  destruct (Ascii.eqb c eof); [discriminate|].
  destruct (isDigit c) eqn:Hd.
  { destruct (number (String c t)) as [n s1] eqn:Hn.
    injection H as <- <-. eapply number_Sound; eassumption. }
  destruct (isAlpha c false) eqn:Ha.
  { destruct (identifier (String c t)) as [x s1] eqn:Hx.
    injection H as <- <-. eapply identifier_Sound; eassumption. }
  destruct (starts "+-^!" (String c t)) eqn:Hu.
  { cbn [next take] in H.
    destruct (factor fuel t) as [r rest1 | v | ] eqn:Hf; try discriminate.
    injection H as <- <-. apply IH in Hf as (H1 & H2 & H3).
    split; [|split].
    - constructor. exact H1.
    - cbn. lia.
    - apply Parsed_unary; [eapply starts_unary; eassumption|].
      eapply Parsed_Suffix; [|exact H3]. constructor. constructor. }
  destruct (Ascii.eqb c "("); [|discriminate].
  cbn [next] in H.
  destruct (orListOver (factor fuel) t) as [e1 s1 | v | ] eqn:Ho; try discriminate.
  apply (orListOver_Sound _ IH) in Ho as (H1 & H2 & H3).
  destruct (next_true_cases s1) as [[Hk Hp] | (c2 & t2 & Hk & Hp)];
    rewrite Hp in H; [discriminate|].
  destruct (Ascii.eqb c2 ")"); [|discriminate].
  injection H as <- <-.
  pose proof (skip_Suffix s1) as Hs1. rewrite Hk in Hs1.
  assert (Hs2 : Suffix t2 s1) by (eapply Suffix_tail; eassumption).
  split; [|split].
  - constructor. eapply Suffix_trans; eassumption.
  - apply Suffix_length in Hs2. cbn. lia.
  - eapply Parsed_Suffix with (t := t); [constructor; constructor | exact H3].
Qed.

Lemma factor_Fueled fuel : Fueled fuel (factor fuel).
Proof.
  induction fuel as [| fuel IH]; intros s Hlen; [lia|].
  rewrite factor_S.
  pose proof (Suffix_length _ _ (skip_Suffix s)) as Hskip.
  destruct (peek_true_cases s) as [[Hk Hp] | (c & t & Hk & Hp)];
    rewrite Hp; rewrite Hk in Hskip; [discriminate|].
  cbn [String.length] in Hskip.
  destruct (Ascii.eqb c eof); [discriminate|].
  destruct (isDigit c).
  { destruct (number (String c t)). discriminate. }
  destruct (isAlpha c false).
  { destruct (identifier (String c t)). discriminate. }
  destruct (starts "+-^!" (String c t)).
  { cbn [next].
    destruct (factor fuel t) eqn:Hf; try discriminate.
    exfalso. apply (IH t); [lia | exact Hf]. }
  destruct (Ascii.eqb c "("); [|discriminate].
  cbn [next].
  destruct (orListOver (factor fuel) t) as [e1 s1 | v | ] eqn:Ho.
  - destruct (next true s1) as [c2 t2]. destruct (negb _); discriminate.
  - discriminate.
  - exfalso.
    apply (orListOver_Fueled fuel (factor fuel) (factor_Sound fuel)) with (s := t);
      [intros s' Hs'; apply IH; exact Hs' | lia | exact Ho].
Qed.

(** [Parse] always comes back: the fuel it gives the model suffices. *)
Lemma Parse_total s : Parse s <> Diverge.
Proof.
  unfold Parse.
  destruct (orList (parseFuel s) s) as [e rest | v | ] eqn:H.
  - destruct (peek true rest) as [c rest']. destruct (negb _); discriminate.
  - destruct v; discriminate.
  - exfalso. unfold orList in H.
    apply (orListOver_Fueled (parseFuel s) (factor (parseFuel s))
             (factor_Sound _) (factor_Fueled _)) with (s := s);
      [unfold parseFuel; lia | exact H].
Qed.

(** The tree of an accepted input has the parser's shape. *)
Lemma Parse_Parsed s e : Parse s = Return e None -> Parsed s e.
Proof.
  unfold Parse.
  destruct (orList (parseFuel s) s) as [e1 rest | v | ] eqn:H.
  - destruct (peek true rest) as [c rest']. destruct (negb _); [discriminate|].
    intros [= <-].
    apply (orListOver_Sound _ (factor_Sound _)) in H. apply H.
  - destruct v; discriminate.
  - discriminate.
Qed.

(** *** The fuel is immaterial *)

Section ParseAgree.
Variables singles doubles : string.
Variables f g : string -> presult.
Variable bound : nat.
Hypothesis fSound : Sound f.
Hypothesis fg : Agree bound f g.

Lemma parseLoop_Agree n : forall e s,
  (String.length s < bound)%nat ->
  parseLoop n singles doubles f e s = parseLoop n singles doubles g e s.
Proof.
  induction n as [| n IH]; intros e s Hb;
    rewrite !parseLoop_eq;
    pose proof (Suffix_length _ _ (skip_Suffix s)) as Hskip;
    (destruct (peek_true_cases s) as [[Hk Hp] | (c & t & Hk & Hp)];
     rewrite Hp; rewrite Hk in Hskip; [reflexivity|]);
    (destruct (Ascii.eqb c eof); [reflexivity|]);
    (destruct (op singles doubles (String c t)) as [[o s1] | v] eqn:Hop;
     [| reflexivity]);
    (apply op_cases in Hop as [[-> ->] | (Hacc & Hs1 & Hlt & _)];
     [reflexivity|]);
    rewrite (accepts_not_empty _ _ _ Hacc); [reflexivity|].
  rewrite <- (fg s1) by lia.
  destruct (f s1) as [r rest1 | v | ] eqn:Hf; try reflexivity.
  apply fSound in Hf as (_ & Hlt1 & _). apply IH. lia.
Qed.

Lemma parse_Agree :
  Agree bound (parse singles doubles f) (parse singles doubles g).
Proof.
  intros s Hb. unfold parse. rewrite <- (fg s Hb).
  destruct (f s) as [e rest | v | ] eqn:Hf; try reflexivity.
  apply fSound in Hf as (_ & Hlt & _). apply parseLoop_Agree. lia.
Qed.

End ParseAgree.

Lemma orListOver_Agree bound f g :
  Sound f -> Agree bound f g -> Agree bound (orListOver f) (orListOver g).
Proof.
  intros Hs Hfg. unfold orListOver, andListOver, cmpListOver, exprOver, termOver.
  repeat (first [apply parse_Agree | apply parse_Sound]);
    auto using accepts_term, accepts_expr, accepts_cmpList, accepts_andList,
      accepts_orList.
Qed.

Lemma factor_Agree fuel1 : forall fuel2 s,
  (String.length s < fuel1)%nat -> (String.length s < fuel2)%nat ->
  factor fuel1 s = factor fuel2 s.
Proof.
  induction fuel1 as [| fuel1 IH]; intros fuel2 s H1 H2; [lia|].
  destruct fuel2 as [| fuel2]; [lia|].
  rewrite !factor_S.
  pose proof (Suffix_length _ _ (skip_Suffix s)) as Hskip.
  destruct (peek_true_cases s) as [[Hk Hp] | (c & t & Hk & Hp)];
    rewrite Hp; rewrite Hk in Hskip; [reflexivity|].
  cbn [String.length] in Hskip.
  destruct (Ascii.eqb c eof); [reflexivity|].
  destruct (isDigit c); [reflexivity|].
  destruct (isAlpha c false); [reflexivity|].
  destruct (starts "+-^!" (String c t)).
  { cbn [next]. rewrite (IH fuel2 t) by lia. reflexivity. }
  destruct (Ascii.eqb c "("); [|reflexivity].
  cbn [next].
  rewrite (orListOver_Agree (S (String.length t)) (factor fuel1) (factor fuel2)
             (factor_Sound fuel1)); [reflexivity | | lia].
  intros s' Hs'. apply IH; lia.
Qed.

(** [Parse] gives [orList] one particular amount of fuel; any larger
    amount gives the same result. *)
Lemma orList_fuel fuel s :
  (String.length s < fuel)%nat -> orList fuel s = orList (parseFuel s) s.
Proof.
  intros H. unfold orList.
  apply (orListOver_Agree (S (String.length s)) (factor fuel)
           (factor (parseFuel s)) (factor_Sound fuel)); [|lia].
  intros s' Hs'. apply factor_Agree; unfold parseFuel; lia.
Qed.

(** ** Rendering, then parsing *)

#[local] Arguments String.append !_ _ / : simpl nomatch.

Lemma append_empty_r s : s +:+ EmptyString = s.
Proof. induction s as [| c s IH]; [reflexivity|]. rewrite append_cons, IH. reflexivity. Qed.

Lemma append_assoc' a b c : (a +:+ b) +:+ c = a +:+ (b +:+ c).
Proof.
  induction a as [| d a IH]; [reflexivity|].
  rewrite !append_cons, IH. reflexivity.
Qed.

(** *** Decimal digits *)

Lemma digitChar_spec d :
  0 <= d <= 9 ->
  isDigit (digitChar d) = true /\ byteOf (digitChar d) - 48 = d.
Proof.
  intros H.
  assert (Hd : d = 0 \/ d = 1 \/ d = 2 \/ d = 3 \/ d = 4 \/ d = 5 \/ d = 6
               \/ d = 7 \/ d = 8 \/ d = 9) by lia.
  repeat (destruct Hd as [-> | Hd]); try subst d; split; reflexivity.
Qed.

Lemma utoaAux_append fuel n acc k :
  utoaAux fuel n acc +:+ k = utoaAux fuel n (acc +:+ k).
Proof.
  revert n acc. induction fuel as [| fuel IH]; intros n acc; cbn [utoaAux];
    [reflexivity|].
  destruct (n <? 10); [reflexivity|].
  rewrite IH. reflexivity.
Qed.

Lemma utoaAux_value fuel : forall n acc,
  0 <= n < 2 ^ Z.of_nat (S fuel) ->
  digitsValue 0 (utoaAux (S fuel) n acc) = digitsValue n acc
  /\ (forall m, snd (numberLoop m (utoaAux (S fuel) n acc))
                = snd (numberLoop m acc))
  /\ exists c t, utoaAux (S fuel) n acc = String c t /\ isDigit c = true.
Proof.
  induction fuel as [| fuel IH]; intros n acc Hn;
    assert (Hmod : 0 <= n mod 10 <= 9)
      by (pose proof (Z.mod_pos_bound n 10); lia);
    destruct (digitChar_spec _ Hmod) as [Hd Hv];
    cbn [utoaAux]; (destruct (n <? 10) eqn:Hlt;
    [ apply Z.ltb_lt in Hlt; rewrite Z.mod_small in * by lia;
      split; [|split];
      [ cbn [digitsValue]; rewrite Hd, Hv; f_equal
      | intros m; cbn [numberLoop]; rewrite Hd; apply numberLoop_rest
      | eauto ]
    | apply Z.ltb_ge in Hlt ]).
  - change (2 ^ Z.of_nat 1) with 2 in Hn. lia.
  - assert (Hq : 0 <= n / 10 < 2 ^ Z.of_nat (S fuel)).
    { split; [apply Z.div_pos; lia|].
      apply Z.div_lt_upper_bound; [lia|].
      rewrite (Nat2Z.inj_succ (S fuel)), Z.pow_succ_r in Hn by lia. lia. }
    destruct (IH (n / 10) (String (digitChar (n mod 10)) acc) Hq)
      as (H1 & H2 & H3).
    split; [|split].
    + etransitivity; [exact H1|]. cbn [digitsValue]. rewrite Hd, Hv. f_equal.
      pose proof (Z.div_mod n 10). lia.
    + intros m. etransitivity; [apply H2|].
      cbn [numberLoop]. rewrite Hd. apply numberLoop_rest.
    + exact H3.
Qed.

Lemma utoa_fuel n : 0 <= n -> 0 <= n < 2 ^ Z.of_nat (S (Z.to_nat (Z.log2 n))).
Proof.
  intros Hn. split; [exact Hn|].
  rewrite Nat2Z.inj_succ, Z2Nat.id by apply Z.log2_nonneg.
  destruct (Z.eq_dec n 0) as [-> | Hne]; [reflexivity|].
  apply Z.log2_spec. lia.
Qed.

Lemma stopper_not_digit k : stopper k = true -> digitsValue 0 k = 0 /\ forall m, numberLoop m k = (m, k).
Proof.
  destruct k as [| c k]; [intros _; split; reflexivity|].
  cbn [stopper]. intros H. apply orb_true_iff in H as [H | H];
    apply Ascii.eqb_eq in H; subst c; split; reflexivity.
Qed.

(** Reading back the decimal form of a non-negative [int]. *)
Lemma number_utoa n k :
  0 <= n <= Int.maxInt -> stopper k = true ->
  number (utoa n +:+ k) = (n, k)
  /\ exists c t, utoa n +:+ k = String c t /\ isDigit c = true.
Proof.
  intros Hn Hk. unfold utoa. rewrite utoaAux_append, append_empty_l.
  destruct (utoaAux_value _ n k (utoa_fuel n (proj1 Hn))) as (H1 & H2 & H3).
  split; [|exact H3].
  apply injective_projections; cbn [fst snd].
  - rewrite number_value, H1.
    assert (Hv : digitsValue n k = n).
    { destruct k as [| c k]; [reflexivity|]. cbn [stopper] in Hk.
      apply orb_true_iff in Hk as [H | H]; apply Ascii.eqb_eq in H; subst c;
        reflexivity. }
    rewrite Hv. apply wrap_small.
    unfold Int.inRange. split; [|lia]. transitivity 0; [discriminate | lia].
  - unfold number. rewrite H2.
    destruct (stopper_not_digit k Hk) as [_ Hs]. rewrite Hs. reflexivity.
Qed.

(** *** Identifiers *)

Lemma identifierLoop_app x : forall acc k,
  isEmpty acc = false -> allAlpha x = true -> stopper k = true ->
  identifierLoop acc (x +:+ k) = (acc +:+ x, k).
Proof.
  induction x as [| c x IH]; intros acc k Hacc Hx Hk.
  - rewrite append_empty_l, append_empty_r.
    destruct k as [| c k]; [reflexivity|].
    cbn [identifierLoop stopper] in *. rewrite Hacc. cbn [negb].
    apply orb_true_iff in Hk as [H | H]; apply Ascii.eqb_eq in H; subst c;
      reflexivity.
  - rewrite append_cons. cbn [identifierLoop allAlpha] in *.
    apply andb_true_iff in Hx as [Hc Hx].
    rewrite Hacc. cbn [negb]. rewrite Hc.
    rewrite IH; auto.
    + rewrite append_assoc'. reflexivity.
    + destruct acc; [discriminate | reflexivity].
Qed.

Lemma identifier_app x k :
  validIdent x = true -> stopper k = true -> identifier (x +:+ k) = (x, k).
Proof.
  destruct x as [| c x]; [discriminate|].
  cbn [validIdent]. intros H Hk. apply andb_true_iff in H as [Hc Hx].
  unfold identifier. rewrite append_cons. cbn [identifierLoop isEmpty negb].
  rewrite Hc, append_empty_l.
  rewrite identifierLoop_app; auto.
Qed.

Lemma isAlpha_first c :
  isAlpha c false = true ->
  containsByte whitespace c = false /\ Ascii.eqb c eof = false
  /\ isDigit c = false.
Proof.
  destruct c as [[] [] [] [] [] [] [] []]; vm_compute; intros H;
    first [discriminate H | repeat split].
Qed.

Lemma isDigit_first c :
  isDigit c = true ->
  containsByte whitespace c = false /\ Ascii.eqb c eof = false.
Proof.
  destruct c as [[] [] [] [] [] [] [] []]; vm_compute; intros H;
    first [discriminate H | repeat split].
Qed.

(** *** One level of the grammar on a rendered tree *)

Section ParseSteps.
Variables singles doubles : string.
Variable nextLevel : string -> presult.

Let parseLoop_unfold := parseLoop_eq singles doubles nextLevel.

(** The loop stops at the end of the input and at a closing parenthesis. *)
Lemma parse_stop_eof s e :
  nextLevel s = POk e EmptyString ->
  parse singles doubles nextLevel s = POk e EmptyString.
Proof. intros H. unfold parse. rewrite H. reflexivity. Qed.

Lemma parse_stop_paren s e k :
  nextLevel s = POk e (String ")" k) ->
  parse singles doubles nextLevel s = POk e (String ")" k).
Proof.
  intros H. unfold parse. rewrite H, parseLoop_unfold. reflexivity.
Qed.

(** The loop leaves to the caller an operator that is not of this level. *)
Lemma parse_pass s l kk c t :
  nextLevel s = POk l kk ->
  skip kk = String c t -> Ascii.eqb c eof = false ->
  op singles doubles (String c t) = Ret (EmptyString, String c t) ->
  parse singles doubles nextLevel s = POk l (String c t).
Proof.
  intros H Hk Hc Hop. unfold parse.
  rewrite H, parseLoop_unfold. unfold peek. rewrite Hk, Hc, Hop. reflexivity.
Qed.

(** The loop takes an operator of this level and an operand, and stops at
    the closing parenthesis after it. *)
Lemma parse_take s l kk c t o s1 r k :
  nextLevel s = POk l kk ->
  skip kk = String c t -> Ascii.eqb c eof = false ->
  op singles doubles (String c t) = Ret (o, s1) -> isEmpty o = false ->
  nextLevel s1 = POk r (String ")" k) ->
  parse singles doubles nextLevel s = POk (binaryNode o l r) (String ")" k).
Proof.
  intros H Hk Hc Hop Ho Hr. unfold parse. rewrite H.
  destruct kk as [| c0 kk]; [discriminate|]. cbn [String.length].
  rewrite parseLoop_unfold. unfold peek. rewrite Hk, Hc, Hop, Ho, Hr.
  rewrite parseLoop_unfold. reflexivity.
Qed.

End ParseSteps.

(** After [=] the length test of [nextOpLen] succeeds as soon as one more
    byte follows. *)
Lemma nextOpLen_equals c t : nextOpLen (String "=" (String c t)) = Ret 2%nat.
Proof.
  cbn [nextOpLen containsByte Ascii.eqb Bool.eqb].
  replace (2 <=? len (String "=" (String c t))) with true; [reflexivity|].
  symmetry. apply Z.leb_le. unfold len. cbn [String.length]. lia.
Qed.

Lemma op_equals singles doubles c t :
  op singles doubles (String "=" (String c t)) =
  if containsPair doubles (String "=" (String c EmptyString))
  then Ret (String "=" (String c EmptyString), t)
  else Ret (EmptyString, String "=" (String c t)).
Proof. unfold op. rewrite nextOpLen_equals. reflexivity. Qed.

Ltac solve_op := first [reflexivity | rewrite op_equals; reflexivity].

Ltac solve_level Hl Hr :=
  first
    [ exact Hl
    | exact Hr
    | solve [eapply parse_stop_paren; solve_level Hl Hr]
    | solve [eapply parse_take;
             [ solve_level Hl Hr | reflexivity | reflexivity | solve_op
             | reflexivity | solve_level Hl Hr ]]
    | solve [eapply parse_pass;
             [ solve_level Hl Hr | reflexivity | reflexivity | solve_op ]] ].

(** A rendered binary node, without its parentheses, through the five
    levels. *)
Lemma orListOver_binary f o l r L R k :
  In o parserBinaryOps ->
  f (L +:+ " " +:+ o +:+ " " +:+ R +:+ String ")" k)
    = POk l (" " +:+ o +:+ " " +:+ R +:+ String ")" k) ->
  f (" " +:+ R +:+ String ")" k) = POk r (String ")" k) ->
  orListOver f (L +:+ " " +:+ o +:+ " " +:+ R +:+ String ")" k)
    = POk (binaryNode o l r) (String ")" k).
Proof.
  unfold parserBinaryOps, binaryOps. cbn [In]. intros Ho Hl Hr.
  unfold orListOver, andListOver, cmpListOver, exprOver, termOver.
  repeat (destruct Ho as [<- | Ho]); [.. | contradiction];
    solve_level Hl Hr.
Qed.

(** *** [factor] on a rendered tree *)

Lemma factor_paren fuel s :
  factor (S fuel) (String "(" s) =
  match orListOver (factor fuel) s with
  | POk e s =>
      let '(c, s) := next true s in
      if negb (Ascii.eqb c ")")
      then pthrow ("unclosed paren at " +:+ remaining s)
      else POk e s
  | PPanic v => PPanic v
  | POutOfFuel => POutOfFuel
  end.
Proof. reflexivity. Qed.

Lemma factor_unary fuel o s :
  In o unaryOps ->
  factor (S fuel) (o +:+ s) =
  match factor fuel s with
  | POk r rest => POk (unaryNode o r) rest
  | PPanic v => PPanic v
  | POutOfFuel => POutOfFuel
  end.
Proof.
  unfold unaryOps. cbn [In]. intros Ho.
  repeat (destruct Ho as [<- | Ho]); [.. | contradiction]; reflexivity.
Qed.

Lemma factor_skip_space fuel s : factor fuel (String " " s) = factor fuel s.
Proof. destruct fuel; reflexivity. Qed.

Lemma length_append' a b :
  String.length (a +:+ b) = (String.length a + String.length b)%nat.
Proof.
  induction a as [| c a IH]; [reflexivity|].
  rewrite append_cons. cbn [String.length]. rewrite IH. reflexivity.
Qed.

Lemma utoaAux_not_empty fuel : forall n acc,
  isEmpty acc = false -> isEmpty (utoaAux fuel n acc) = false.
Proof.
  induction fuel as [| fuel IH]; intros n acc Hacc; cbn [utoaAux]; [exact Hacc|].
  destruct (n <? 10); [reflexivity|]. apply IH. reflexivity.
Qed.

Lemma itoa_not_empty n : isEmpty (itoa n) = false.
Proof.
  unfold itoa, utoa. destruct (n <? 0); [reflexivity|].
  cbn [utoaAux]. destruct (n <? 10); [reflexivity|].
  apply utoaAux_not_empty. reflexivity.
Qed.

Lemma String_unary o r :
  isEmpty o = false ->
  String_ (unaryNode o r) = "(" +:+ o +:+ String_ r +:+ ")".
Proof. intros Ho. cbn [String_ unaryNode]. rewrite Ho. reflexivity. Qed.

Lemma String_binary o l r :
  isEmpty o = false -> isEmpty (String_ l) = false ->
  String_ (binaryNode o l r)
  = "(" +:+ String_ l +:+ " " +:+ o +:+ " " +:+ String_ r +:+ ")".
Proof. intros Ho Hl. cbn [String_ binaryNode]. rewrite Ho, Hl. reflexivity. Qed.

Lemma In_binaryOps_length o : In o parserBinaryOps -> (1 <= String.length o)%nat.
Proof.
  intros H. apply In_binaryOps_not_empty in H. destruct o; [discriminate | cbn; lia].
Qed.

Lemma String_not_empty P e :
  Shaped parserBinaryOps P e -> isEmpty (String_ e) = false.
Proof.
  destruct 1 as [n _ | x Hx | o r Ho Hr | o l r Ho Hl Hr].
  - apply itoa_not_empty.
  - cbn. rewrite (validIdent_not_empty _ Hx). cbn. apply validIdent_not_empty, Hx.
  - rewrite String_unary by (apply In_unaryOps_not_empty, Ho). reflexivity.
  - cbn [String_ binaryNode]. rewrite (In_binaryOps_not_empty _ Ho).
    destruct (isEmpty (String_ l)); reflexivity.
Qed.

Lemma height_String P e :
  Shaped parserBinaryOps P e ->
  (height e <= S (String.length (String_ e)))%nat.
Proof.
  induction 1 as [n _ | x Hx | o r Ho Hr IHr | o l r Ho Hl IHl Hr IHr].
  - pose proof (itoa_not_empty n) as H. cbn.
    destruct (itoa n); [discriminate | cbn; lia].
  - cbn. rewrite (validIdent_not_empty _ Hx). cbn.
    destruct x; [discriminate | cbn; lia].
  - rewrite String_unary by (apply In_unaryOps_not_empty, Ho).
    rewrite !length_append'. cbn [height unaryNode String.length]. lia.
  - rewrite String_binary
      by eauto using In_binaryOps_not_empty, String_not_empty.
    rewrite !length_append'. cbn [height binaryNode String.length].
    apply In_binaryOps_length in Ho. lia.
Qed.

Lemma factor_String e :
  Renderable e -> forall fuel k,
  (height e <= fuel)%nat -> stopper k = true ->
  factor fuel (String_ e +:+ k) = POk e k.
Proof.
  unfold Renderable.
  induction 1 as [n Hn | x Hx | o r Ho Hr IHr | o l r Ho Hl IHl Hr IHr];
    intros fuel k Hfuel Hk.
  - destruct fuel as [| fuel]; [cbn in Hfuel; lia|].
    change (String_ (numLeaf n)) with (itoa n). unfold itoa.
    replace (n <? 0) with false by (symmetry; apply Z.ltb_ge; lia).
    destruct (number_utoa n k Hn Hk) as (Hnum & c & t & Hs & Hc).
    rewrite Hs in *. destruct (isDigit_first c Hc) as [Hw He].
    rewrite factor_S. unfold peek. rewrite (skip_id _ _ Hw), He, Hc, Hnum.
    reflexivity.
  - destruct fuel as [| fuel]; [cbn in Hfuel; lia|].
    assert (Hs : String_ (identLeaf x) = x).
    { cbn. rewrite (validIdent_not_empty _ Hx). reflexivity. }
    rewrite Hs. pose proof (identifier_app x k Hx Hk) as Hid.
    destruct x as [| c x]; [discriminate|].
    cbn [validIdent] in Hx. apply andb_true_iff in Hx as [Hc _].
    destruct (isAlpha_first c Hc) as (Hw & He & Hd).
    rewrite append_cons in *.
    rewrite factor_S. unfold peek. rewrite (skip_id _ _ Hw), He, Hd, Hc, Hid.
    reflexivity.
  - destruct fuel as [| [| fuel]]; [cbn in Hfuel; lia | cbn in Hfuel; lia |].
    rewrite String_unary by (apply In_unaryOps_not_empty, Ho).
    rewrite !append_assoc'.
    change ("(" +:+ o +:+ String_ r +:+ ")" +:+ k)
      with (String "(" (o +:+ String_ r +:+ String ")" k)).
    rewrite factor_paren.
    assert (Hin : factor (S fuel) (o +:+ String_ r +:+ String ")" k)
                  = POk (unaryNode o r) (String ")" k)).
    { rewrite (factor_unary _ _ _ Ho), IHr; [reflexivity | | reflexivity].
      cbn in Hfuel. lia. }
    unfold orListOver, andListOver, cmpListOver, exprOver, termOver.
    rewrite (parse_stop_paren _ _ _ _ (unaryNode o r) k);
      [reflexivity|].
    do 4 (apply parse_stop_paren). exact Hin.
  - destruct fuel as [| fuel]; [cbn in Hfuel; lia|].
    rewrite String_binary
      by eauto using In_binaryOps_not_empty, String_not_empty.
    rewrite !append_assoc'.
    change ("(" +:+ String_ l +:+ " " +:+ o +:+ " " +:+ String_ r +:+ ")" +:+ k)
      with (String "("
              (String_ l +:+ " " +:+ o +:+ " " +:+ String_ r +:+ String ")" k)).
    rewrite factor_paren.
    cbn [height binaryNode] in Hfuel.
    rewrite (orListOver_binary (factor fuel) o l r (String_ l) (String_ r) k Ho).
    + reflexivity.
    + apply IHl; [lia | reflexivity].
    + change (" " +:+ String_ r +:+ String ")" k)
        with (String " " (String_ r +:+ String ")" k)).
      rewrite factor_skip_space. apply IHr; [lia | reflexivity].
Qed.

(** A tree without negative literals is parsed back from its rendering. *)
Lemma Parse_String e : Renderable e -> Parse (String_ e) = Return e None.
Proof.
  intros He. unfold Parse, orList.
  assert (H : factor (parseFuel (String_ e)) (String_ e) = POk e EmptyString).
  { rewrite <- (append_empty_r (String_ e)) at 2.
    apply factor_String; [exact He | | reflexivity].
    apply (height_String _ _ He). }
  unfold orListOver, andListOver, cmpListOver, exprOver, termOver.
  rewrite (parse_stop_eof _ _ _ _ e); [reflexivity|].
  do 4 (apply parse_stop_eof). exact H.
Qed.

(** ** Deciding the shape *)

Lemma isEmpty_true s : isEmpty s = true -> s = EmptyString.
Proof. destruct s; [reflexivity | discriminate]. Qed.

Lemma isNil_true e : isNil e = true -> e = Nil.
Proof. destruct e; [reflexivity | discriminate]. Qed.

Lemma existsb_In o ops : existsb (String.eqb o) ops = true -> In o ops.
Proof.
  intros H. apply existsb_exists in H as (x & Hx & E).
  apply String.eqb_eq in E. subst. exact Hx.
Qed.

Lemma shaped_Shaped ops numOK e :
  shaped ops numOK e = true -> Shaped ops (fun n => numOK n = true) e.
Proof.
  induction e as [| o l IHl r IHr ident num]; cbn [shaped]; [discriminate|].
  destruct (isEmpty o) eqn:Eo.
  - apply isEmpty_true in Eo. subst o. intros H.
    apply andb_true_iff in H as [H Hleaf]. apply andb_true_iff in H as [Hl Hr].
    apply isNil_true in Hl, Hr. subst l r.
    destruct (isEmpty ident) eqn:Ei.
    + apply isEmpty_true in Ei. subst ident. constructor. exact Hleaf.
    + apply andb_true_iff in Hleaf as [Hv Hn]. apply Z.eqb_eq in Hn. subst num.
      constructor. exact Hv.
  - intros H. apply andb_true_iff in H as [H Hnode].
    apply andb_true_iff in H as [Hi Hn].
    apply isEmpty_true in Hi. apply Z.eqb_eq in Hn. subst ident num.
    destruct (isNil l) eqn:El.
    + apply isNil_true in El. subst l.
      apply andb_true_iff in Hnode as [Ho Hr].
      apply ShapedUnary; [apply existsb_In, Ho | apply IHr, Hr].
    + apply andb_true_iff in Hnode as [H Hr]. apply andb_true_iff in H as [Ho Hl].
      apply ShapedBinary; [apply existsb_In, Ho | apply IHl, Hl | apply IHr, Hr].
Qed.


(** A tree of the parser's shape whose literals are not negative can be
    rendered and parsed back. *)
Lemma ParserTree_Renderable e :
  ParserTree e -> Forall (fun n => 0 <= n) (numLeaves e) -> Renderable e.
Proof.
  unfold ParserTree, Renderable.
  induction 1 as [n Hn | x Hx | o r Ho Hr IHr | o l r Ho Hl IHl Hr IHr];
    intros Hnum.
  - constructor. cbn in Hnum. inversion Hnum; subst.
    unfold Int.inRange in Hn. lia.
  - constructor. exact Hx.
  - constructor; [exact Ho|]. apply IHr.
    cbn [numLeaves unaryNode] in Hnum.
    rewrite (In_unaryOps_not_empty _ Ho) in Hnum. exact Hnum.
  - cbn [numLeaves binaryNode] in Hnum.
    rewrite (In_binaryOps_not_empty _ Ho) in Hnum. cbn [andb app] in Hnum.
    apply Forall_app in Hnum as [H1 H2]. constructor; auto.
Qed.

(** Without a binary [!] a tree of the parser's shape is well formed. *)
Lemma ParserTree_WellFormed e :
  ParserTree e -> ~ In "!" (binaryOpsOf e) -> WellFormed e.
Proof.
  unfold ParserTree, WellFormed.
  induction 1 as [n Hn | x Hx | o r Ho Hr IHr | o l r Ho Hl IHl Hr IHr];
    intros Hnot.
  - constructor. exact I.
  - constructor. exact Hx.
  - constructor; [exact Ho|]. apply IHr. intros Hin. apply Hnot.
    cbn [binaryOpsOf unaryNode isNil negb andb app]. exact Hin.
  - cbn [binaryOpsOf binaryNode] in Hnot.
    rewrite (Shaped_not_Nil _ _ _ Hl), (Shaped_not_Nil _ _ _ Hr) in Hnot.
    cbn [negb andb app] in Hnot.
    constructor.
    + destruct Ho as [<- | Ho]; [|exact Ho]. exfalso. apply Hnot. left. reflexivity.
    + apply IHl. intros Hin. apply Hnot. right. apply in_or_app. left. exact Hin.
    + apply IHr. intros Hin. apply Hnot. right. apply in_or_app. right. exact Hin.
Qed.

(** Every binary operator of a parsed tree is one the levels accept. *)
Lemma ParserTree_binaryOps e :
  ParserTree e -> Forall (fun o => In o parserBinaryOps) (binaryOpsOf e).
Proof.
  unfold ParserTree.
  induction 1 as [n Hn | x Hx | o r Ho Hr IHr | o l r Ho Hl IHl Hr IHr].
  - constructor.
  - constructor.
  - cbn [binaryOpsOf unaryNode isNil negb andb app]. exact IHr.
  - cbn [binaryOpsOf binaryNode].
    rewrite (Shaped_not_Nil _ _ _ Hl), (Shaped_not_Nil _ _ _ Hr).
    cbn [negb andb app]. constructor; [exact Ho|].
    apply Forall_app. auto.
Qed.

(** An input without [!] as a binary operator evaluates in [ReturnZero]
    mode without an error. *)
Lemma Eval_ReturnZero_no_binary_not s e vars :
  Parse s = Return e None -> ~ In "!" (binaryOpsOf e) ->
  exists v, Eval e vars ReturnZero = Return v None.
Proof.
  intros Hp Hnot. apply Parse_Parsed in Hp as [Ht _].
  destruct (eval_ReturnZero_WellFormed vars e
              (ParserTree_WellFormed e Ht Hnot)) as [v Hv].
  exists v. unfold Eval. rewrite Hv. reflexivity.
Qed.

(** ** The claims *)

(** C1.  [Parse] accepts ["1 ! 2"] and builds a binary node whose operator
    is [!]; evaluating that tree in [ReturnZero] mode returns the error
    "unknown binary operator (can't happen) !" instead of a value, for every
    binding of the variables. *)
Theorem Eval_ReturnZero_binary_not_fails :
  Parse "1 ! 2" = Return (binaryNode "!" (numLeaf 1) (numLeaf 2)) None
  /\ forall vars : gmap string Z,
       Eval (binaryNode "!" (numLeaf 1) (numLeaf 2)) vars ReturnZero
       = Return 0
           (Some (errorString "unknown binary operator (can't happen) !")).
Proof. split; [vm_compute; reflexivity | intros vars; reflexivity]. Qed.

(** C2.  [Parse] accepts ["x ! y"] and returns a binary node (both children
    present) whose operator is [!], which is not one of the nineteen binary
    operators. *)
Theorem Parse_binary_not :
  Parse "x ! y" = Return (binaryNode "!" (identLeaf "x") (identLeaf "y")) None
  /\ binaryOpsOf (binaryNode "!" (identLeaf "x") (identLeaf "y")) = ["!"]
  /\ ~ In "!" binaryOps.
Proof.
  split; [vm_compute; reflexivity | split; [reflexivity|]].
  unfold binaryOps. cbn [In]. intros H.
  repeat (destruct H as [H | H]; [discriminate H|]). exact H.
Qed.




(** C4.  On the input ["x="] the parser reads [p.s[1]] of the one-byte
    string ["="]: [nextOpLen] panics with an index out of range, and [Parse]
    returns that run-time error. *)
Theorem Parse_bare_equals_at_end :
  nextOpLen "="
  = Panic (PanicError (runtimeError "index out of range [1] with length 1"))
  /\ Parse "x="
     = Return Nil (Some (runtimeError "index out of range [1] with length 1"))
  /\ Error (runtimeError "index out of range [1] with length 1")
     = "runtime error: index out of range [1] with length 1".
Proof. repeat split; vm_compute; reflexivity. Qed.

(** C5, as stated, fails: the literal 9223372036854775808 wraps around to
    the most negative [int], which is rendered with a minus sign; that
    rendering parses as a unary minus and renders differently. *)
Lemma render_not_fixed_point :
  exists e e',
    Parse "9223372036854775808" = Return e None
    /\ Parse (String_ e) = Return e' None
    /\ String_ e' <> String_ e.
Proof.
  exists (numLeaf Int.minInt), (unaryNode "-" (numLeaf Int.minInt)).
  split; [vm_compute; reflexivity|].
  split; [vm_compute; reflexivity|].
  vm_compute. discriminate.
Qed.

(** C5, amended.  For every input accepted by [Parse] in which every run
    of decimal digits denotes a number of at most 2^63 - 1, the rendering of
    the tree is accepted by [Parse], it parses to the same tree, and so it
    renders to the same string again. *)
Theorem Parse_String_fixed_point (s : string) (e : Expr) :
  Parse s = Return e None -> literalsFit s = true ->
  exists e',
    Parse (String_ e) = Return e' None
    /\ String_ e' = String_ e
    /\ e' = e.
Proof.
  intros Hp Hfit. exists e.
  apply Parse_Parsed in Hp as [Ht Hn].
  split; [|split; reflexivity].
  apply Parse_String, ParserTree_Renderable; auto.
Qed.

Lemma Parse_String_fixed_point_witness :
  exists e',
    Parse "((x < 10) && ((-y) == (3 * z_1)))" = Return e' None
    /\ String_ e' = "((x < 10) && ((-y) == (3 * z_1)))".
Proof.
  destruct (Parse_String_fixed_point "x<10&&-y==3 *z_1"
    (binaryNode "&&" (binaryNode "<" (identLeaf "x") (numLeaf 10))
       (binaryNode "==" (unaryNode "-" (identLeaf "y"))
          (binaryNode "*" (numLeaf 3) (identLeaf "z_1")))))
    as (e' & H1 & H2 & _); [vm_compute; reflexivity | vm_compute; reflexivity |].
  exists e'. split; [exact H1 | exact H2].
Defined.




(** C8, as stated, fails: the literal 9223372036854775808 is accepted and
    its leaf holds -9223372036854775808. *)
Lemma literal_wraps_negative :
  exists e,
    Parse "9223372036854775808" = Return e None
    /\ numLeaves e = [-9223372036854775808]
    /\ ~ Forall (fun n => 0 <= n) (numLeaves e).
Proof.
  exists (numLeaf Int.minInt).
  split; [vm_compute; reflexivity | split; [reflexivity|]].
  intros H. inversion H; subst. vm_compute in H2. apply H2. reflexivity.
Qed.

(** C8, amended.  For every input accepted by [Parse], every numeric leaf
    of the tree holds a value of the [int] range, and when every run of
    decimal digits in the input denotes a number of at most 2^63 - 1 every
    numeric leaf is non-negative.  A minus sign is never part of the
    literal: ["-3"] is a unary node over the leaf 3. *)
Theorem Parse_numeric_leaves (s : string) (e : Expr) :
  Parse s = Return e None ->
  Forall Int.inRange (numLeaves e)
  /\ (literalsFit s = true -> Forall (fun n => 0 <= n) (numLeaves e))
  /\ Parse "-3" = Return (unaryNode "-" (numLeaf 3)) None.
Proof.
  intros Hp. apply Parse_Parsed in Hp as [Ht Hn].
  split; [|split; [exact Hn | vm_compute; reflexivity]].
  clear Hn. unfold ParserTree in Ht.
  induction Ht as [n Hn | x Hx | o r Ho Hr IHr | o l r Ho Hl IHl Hr IHr].
  - cbn. constructor; [exact Hn | constructor].
  - cbn. rewrite (validIdent_not_empty _ Hx). constructor.
  - cbn [numLeaves unaryNode]. rewrite (In_unaryOps_not_empty _ Ho). exact IHr.
  - cbn [numLeaves binaryNode]. rewrite (In_binaryOps_not_empty _ Ho).
    cbn [andb app]. apply Forall_app. auto.
Qed.

Lemma Parse_numeric_leaves_witness :
  Forall Int.inRange [12; 9223372036854775807]
  /\ Forall (fun n => 0 <= n) [12; 9223372036854775807].
Proof.
  destruct (Parse_numeric_leaves "12 * x3 + 9223372036854775807"
    (binaryNode "+" (binaryNode "*" (numLeaf 12) (identLeaf "x3"))
       (numLeaf 9223372036854775807)))
    as (H1 & H2 & _); [vm_compute; reflexivity|].
  split; [exact H1 | apply H2; vm_compute; reflexivity].
Defined.





(** ** Further properties of the evaluator *)

Lemma evalBinary_modes o a b v :
  evalBinary ReturnError o a b = Ret v -> evalBinary ReturnZero o a b = Ret v.
Proof.
  unfold evalBinary.
  repeat match goal with
         | |- context [String.eqb o ?x] => destruct (String.eqb o x)
         end;
    try (destruct (b =? 0)); try (destruct (b <? 0));
    first [discriminate | exact (fun H => H)].
Qed.

Lemma eval_modes e vars v :
  eval e vars ReturnError = Ret v -> eval e vars ReturnZero = Ret v.
Proof.
  revert v. induction e as [| o l IHl r IHr ident num]; intros v; [exact (fun H => H)|].
  cbn [eval]. destruct (isEmpty o).
  - destruct (negb (isEmpty ident)); [|exact (fun H => H)].
    destruct (vars !! ident); [exact (fun H => H) | discriminate].
  - destruct (negb (isNil l) && negb (isNil r)).
    + destruct (eval l vars ReturnError) as [a |]; [|discriminate].
      rewrite (IHl a eq_refl).
      destruct (eval r vars ReturnError) as [b |]; [|discriminate].
      rewrite (IHr b eq_refl). cbn [bind]. apply evalBinary_modes.
    + destruct (negb (isNil r)); [|discriminate].
      destruct (eval r vars ReturnError) as [b |]; [|discriminate].
      rewrite (IHr b eq_refl). exact (fun H => H).
Qed.

(** X1.  Whenever [Eval] succeeds in [ReturnError] mode, it returns the
    same value in [ReturnZero] mode, on every tree and every binding. *)
Theorem Eval_ReturnError_then_ReturnZero
    (e : Expr) (vars : gmap string Z) (v : Z) :
  Eval e vars ReturnError = Return v None ->
  Eval e vars ReturnZero = Return v None.
Proof.
  unfold Eval. destruct (eval e vars ReturnError) as [a | p] eqn:He.
  - intros [= <-]. rewrite (eval_modes _ _ _ He). reflexivity.
  - destruct p; discriminate.
Qed.

Lemma Eval_ReturnError_then_ReturnZero_witness :
  Eval (binaryNode "/" (identLeaf "x") (numLeaf 2)) (<["x" := 9]> ∅) ReturnZero
  = Return 4 None.
Proof.
  apply Eval_ReturnError_then_ReturnZero. vm_compute. reflexivity.
Defined.

Lemma eval_coincide e (vars vars' : gmap string Z) errMode :
  (forall x, In x (identsOf e) -> vars !! x = vars' !! x) ->
  eval e vars errMode = eval e vars' errMode.
Proof.
  induction e as [| o l IHl r IHr ident num]; intros H; [reflexivity|].
  cbn [eval identsOf] in *. destruct (isEmpty o).
  - destruct (isEmpty ident); [reflexivity|]. cbn [negb].
    rewrite (H ident) by (left; reflexivity). reflexivity.
  - destruct (negb (isNil l) && negb (isNil r)).
    + rewrite IHl by (intros x Hx; apply H, in_or_app; left; exact Hx).
      rewrite IHr by (intros x Hx; apply H, in_or_app; right; exact Hx).
      reflexivity.
    + destruct (negb (isNil r)); [|reflexivity].
      rewrite IHr by exact H. reflexivity.
Qed.

(** X2.  [Eval] reads the binding only at the identifiers of the tree: two
    bindings that agree on them give the same result, in every mode. *)
Theorem Eval_reads_identifiers
    (e : Expr) (vars vars' : gmap string Z) (errMode : ErrorMode) :
  (forall x, In x (identsOf e) -> vars !! x = vars' !! x) ->
  Eval e vars errMode = Eval e vars' errMode.
Proof.
  intros H. unfold Eval. rewrite (eval_coincide e vars vars' errMode H).
  reflexivity.
Qed.

Lemma Eval_reads_identifiers_witness :
  Eval (binaryNode "+" (identLeaf "x") (numLeaf 1)) (<["x" := 2]> ∅) ReturnError
  = Eval (binaryNode "+" (identLeaf "x") (numLeaf 1))
      (<["y" := 5]> (<["x" := 2]> ∅)) ReturnError.
Proof.
  apply Eval_reads_identifiers.
  intros x [<- | []]. vm_compute. reflexivity.
Defined.

Lemma eval_unbound_zero e (vars : gmap string Z) x :
  vars !! x = None ->
  eval e (<[x := 0]> vars) ReturnZero = eval e vars ReturnZero.
Proof.
  intros Hx. induction e as [| o l IHl r IHr ident num]; [reflexivity|].
  cbn [eval]. destruct (isEmpty o).
  - destruct (negb (isEmpty ident)); [|reflexivity].
    destruct (decide (x = ident)) as [<- | Hne].
    + rewrite lookup_insert_eq, Hx. reflexivity.
    + rewrite lookup_insert_ne by exact Hne. reflexivity.
  - rewrite IHl, IHr. reflexivity.
Qed.

(** X3.  In [ReturnZero] mode a variable that is not bound evaluates like
    a variable bound to 0: binding it to 0 changes no result. *)
Theorem Eval_ReturnZero_unbound_is_zero
    (e : Expr) (vars : gmap string Z) (x : string) :
  vars !! x = None ->
  Eval e (<[x := 0]> vars) ReturnZero = Eval e vars ReturnZero.
Proof.
  intros Hx. unfold Eval. rewrite (eval_unbound_zero e vars x Hx). reflexivity.
Qed.

Lemma Eval_ReturnZero_unbound_is_zero_witness :
  Eval (binaryNode "+" (numLeaf 4) (identLeaf "zz")) (<["zz" := 0]> ∅) ReturnZero
  = Eval (binaryNode "+" (numLeaf 4) (identLeaf "zz")) ∅ ReturnZero.
Proof.
  apply Eval_ReturnZero_unbound_is_zero. reflexivity.
Defined.

Lemma ErrorMode_error_panic errMode msg v :
  ErrorMode_error errMode msg = Panic (PanicString v) ->
  v = "bad error mode" /\ errMode <> ReturnError /\ errMode <> ReturnZero.
Proof.
  unfold ErrorMode_error.
  destruct (Z.eqb_spec errMode ReturnZero); [discriminate|].
  destruct (Z.eqb_spec errMode ReturnError); [discriminate|].
  intros [= <-]. auto.
Qed.

Lemma evalBinary_panic errMode o a b v :
  evalBinary errMode o a b = Panic (PanicString v) ->
  v = "bad error mode" /\ errMode <> ReturnError /\ errMode <> ReturnZero.
Proof.
  unfold evalBinary.
  repeat match goal with
         | |- context [String.eqb o ?x] => destruct (String.eqb o x)
         end;
    try (destruct (b =? 0)); try (destruct (b <? 0));
    first [discriminate | apply ErrorMode_error_panic].
Qed.

Lemma eval_panic e vars errMode v :
  eval e vars errMode = Panic (PanicString v) ->
  v = "bad error mode" /\ errMode <> ReturnError /\ errMode <> ReturnZero.
Proof.
  induction e as [| o l IHl r IHr ident num]; [discriminate|].
  cbn [eval]. destruct (isEmpty o).
  - destruct (negb (isEmpty ident)); [|discriminate].
    destruct (vars !! ident); [discriminate | apply ErrorMode_error_panic].
  - destruct (negb (isNil l) && negb (isNil r)).
    + destruct (eval l vars errMode) as [a | p]; [|intros [= ->]; auto].
      destruct (eval r vars errMode) as [b | p]; [|intros [= ->]; auto].
      apply evalBinary_panic.
    + destruct (negb (isNil r)); [|discriminate].
      destruct (eval r vars errMode) as [b | p]; [|intros [= ->]; auto].
      cbn [bind]. unfold evalUnary.
      repeat match goal with
             | |- context [String.eqb o ?x] => destruct (String.eqb o x)
             end; discriminate.
Qed.

(** X4.  [Eval] lets a panic through only when the error mode is neither
    [ReturnError] nor [ReturnZero], and then the panic is "bad error mode":
    with one of the two modes it always returns, on every tree. *)
Theorem Eval_panics_only_on_bad_mode
    (e : Expr) (vars : gmap string Z) (errMode : ErrorMode) :
  (forall v, Eval e vars errMode = Crash v ->
     v = PanicString "bad error mode"
     /\ errMode <> ReturnError /\ errMode <> ReturnZero)
  /\ Eval e vars errMode <> Diverge
  /\ Eval (identLeaf "zz") ∅ 7 = Crash (PanicString "bad error mode").
Proof.
  split; [|split; [|reflexivity]].
  - intros v. unfold Eval.
    destruct (eval e vars errMode) as [a | [err | msg]] eqn:He; try discriminate.
    cbn [recoverer]. intros [= <-].
    destruct (eval_panic _ _ _ _ He) as (-> & H1 & H2). auto.
  - unfold Eval. destruct (eval e vars errMode) as [a | [err | msg]]; discriminate.
Qed.

Lemma Eval_panics_only_on_bad_mode_witness :
  Eval (identLeaf "zz") ∅ 7 = Crash (PanicString "bad error mode")
  /\ 7 <> ReturnError /\ 7 <> ReturnZero.
Proof.
  split; [reflexivity|].
  destruct (Eval_panics_only_on_bad_mode (identLeaf "zz") ∅ 7) as [H _].
  apply (H (PanicString "bad error mode")). reflexivity.
Defined.

(** X5.  [x &^ y] evaluates like [x & (^y)]: a node with the operator
    [&^] and the node that applies [&] to the left operand and the unary
    [^] of the right operand have the same result, in every mode. *)
Theorem Eval_andnot_is_and_of_not
    (l r : Expr) (vars : gmap string Z) (errMode : ErrorMode) :
  isNil l = false -> isNil r = false ->
  Eval (binaryNode "&^" l r) vars errMode
  = Eval (binaryNode "&" l (unaryNode "^" r)) vars errMode.
Proof.
  intros Hl Hr. unfold Eval, binaryNode, unaryNode.
  rewrite !eval_binary, eval_unary by auto.
  destruct (eval l vars errMode) as [a | p]; [|reflexivity].
  destruct (eval r vars errMode) as [b | p]; [|reflexivity].
  cbn [bind evalUnary String.eqb Ascii.eqb Bool.eqb].
  cbv beta delta [evalBinary] iota. cbn [String.eqb Ascii.eqb Bool.eqb].
  rewrite Z.ldiff_land. reflexivity.
Qed.

Lemma Eval_andnot_is_and_of_not_witness :
  Eval (binaryNode "&^" (numLeaf 17) (numLeaf 5)) ∅ ReturnError
  = Eval (binaryNode "&" (numLeaf 17) (unaryNode "^" (numLeaf 5))) ∅ ReturnError.
Proof.
  apply Eval_andnot_is_and_of_not; reflexivity.
Defined.

Lemma truthOps_not_empty o : In o truthOps -> isEmpty o = false.
Proof.
  unfold truthOps. cbn [In]. intros Ho.
  repeat (destruct Ho as [<- | Ho]); try contradiction; reflexivity.
Qed.

(** X6.  Truth values are the integers 0 and 1: when a node with a
    comparison or a logical operator and both operands, or a node with the
    unary [!], evaluates without error, its value is 0 or 1. *)
Theorem Eval_truth_values
    (l r : Expr) (vars : gmap string Z) (errMode : ErrorMode) (v : Z) :
  isNil r = false ->
  (forall o, In o truthOps -> isNil l = false ->
     Eval (binaryNode o l r) vars errMode = Return v None -> v = 0 \/ v = 1)
  /\ (Eval (unaryNode "!" r) vars errMode = Return v None -> v = 0 \/ v = 1).
Proof.
  intros Hr. split.
  - intros o Ho Hl. unfold Eval, binaryNode.
    rewrite (eval_binary o l r "" 0 vars errMode (truthOps_not_empty o Ho) Hl Hr).
    destruct (eval l vars errMode) as [a | [p | p]]; try discriminate.
    destruct (eval r vars errMode) as [b | [p | p]]; try discriminate.
    cbn [bind]. revert Ho. unfold truthOps. cbn [In]. intros Ho.
    repeat (destruct Ho as [<- | Ho]); try contradiction;
      cbv beta delta [evalBinary] iota; cbn [String.eqb Ascii.eqb Bool.eqb];
      intros [= <-];
      match goal with
      | |- context [toInt ?c] => destruct c; cbn; auto
      end.
  - unfold Eval, unaryNode.
    rewrite (eval_unary "!" r "" 0 vars errMode eq_refl Hr).
    destruct (eval r vars errMode) as [b | [p | p]]; try discriminate.
    cbn. intros [= <-]. destruct (b =? 0); cbn; auto.
Qed.

Lemma Eval_truth_values_witness :
  Eval (binaryNode "<" (numLeaf 5) (numLeaf 7)) ∅ ReturnError = Return 1 None
  /\ (1 = 0 \/ 1 = 1).
Proof.
  split; [reflexivity|].
  destruct (Eval_truth_values (numLeaf 5) (numLeaf 7) ∅ ReturnError 1 eq_refl)
    as [H _].
  apply (H "<"); [cbn; tauto | reflexivity | reflexivity].
Defined.

(** *** Values stay in the range of [int] *)

Lemma nonneg_high_bits a n :
  0 <= a -> 0 <= n -> (a < 2 ^ n <-> forall i, n <= i -> Z.testbit a i = false).
Proof.
  intros Ha Hn. split.
  - intros Hlt i Hi.
    destruct (Z.eq_dec a 0) as [-> | Hne]; [apply Z.testbit_0_l|].
    apply Z.bits_above_log2; [exact Ha|].
    assert (Z.log2 a < n) by (apply Z.log2_lt_pow2; lia). lia.
  - intros Hbits. destruct (Z_lt_ge_dec a (2 ^ n)) as [Hlt | Hge]; [exact Hlt|].
    exfalso.
    assert (Hpos : 0 < a) by (pose proof (Z.pow_pos_nonneg 2 n); lia).
    assert (Hlog : n <= Z.log2 a) by (apply Z.log2_le_pow2; lia).
    pose proof (Z.bit_log2 a Hpos) as Hbit.
    rewrite (Hbits _ Hlog) in Hbit. discriminate.
Qed.

Lemma inRange_sign_bits a :
  Int.inRange a <-> forall i, 63 <= i -> Z.testbit a i = (a <? 0).
Proof.
  unfold Int.inRange, Int.minInt, Int.maxInt, Int.half, Int.width.
  change (64 - 1) with 63.
  destruct (Z.ltb_spec a 0) as [Hneg | Hpos].
  - assert (Hl : 0 <= Z.lnot a) by (unfold Z.lnot; lia).
    pose proof (nonneg_high_bits (Z.lnot a) 63 Hl ltac:(lia)) as Hb.
    split.
    + intros H i Hi. destruct Hb as [Hb _].
      specialize (Hb ltac:(unfold Z.lnot; lia) i Hi).
      rewrite Z.lnot_spec in Hb by lia.
      destruct (Z.testbit a i); [reflexivity | discriminate].
    + intros H. destruct Hb as [_ Hb].
      assert (Z.lnot a < 2 ^ 63).
      { apply Hb. intros i Hi. rewrite Z.lnot_spec by lia.
        rewrite (H i Hi). reflexivity. }
      unfold Z.lnot in *. lia.
  - pose proof (nonneg_high_bits a 63 Hpos ltac:(lia)) as Hb.
    split.
    + intros H i Hi. apply Hb; [lia | exact Hi].
    + intros H. assert (a < 2 ^ 63) by (apply Hb; exact H). lia.
Qed.

(** The range of [int] as sign extension: every bit from 63 on repeats
    bit 63. *)
Lemma inRange_bits a :
  Int.inRange a <-> forall i, 63 <= i -> Z.testbit a i = Z.testbit a 63.
Proof.
  rewrite inRange_sign_bits. split.
  - intros H i Hi. rewrite (H i Hi), (H 63) by lia. reflexivity.
  - intros H i Hi. rewrite (H i Hi).
    destruct (Z.ltb_spec a 0) as [Hneg | Hpos].
    + destruct (proj1 (Z.bits_iff_neg_ex a) Hneg) as [k Hk].
      rewrite <- (H (Z.max 63 (k + 1))) by lia. apply Hk. lia.
    + destruct (proj1 (Z.bits_iff_nonneg_ex a) Hpos) as [k Hk].
      rewrite <- (H (Z.max 63 (k + 1))) by lia. apply Hk. lia.
Qed.

Lemma bitwise_inRange (f : Z -> Z -> Z) (g : bool -> bool -> bool) a b :
  (forall x y i, 0 <= i -> Z.testbit (f x y) i = g (Z.testbit x i) (Z.testbit y i)) ->
  Int.inRange a -> Int.inRange b -> Int.inRange (f a b).
Proof.
  intros Hf Ha Hb. rewrite inRange_bits in *. intros i Hi.
  rewrite !Hf by lia. rewrite (Ha i Hi), (Hb i Hi). reflexivity.
Qed.

Lemma lnot_inRange a : Int.inRange a -> Int.inRange (Z.lnot a).
Proof.
  unfold Int.inRange, Int.minInt, Int.maxInt, Z.lnot. lia.
Qed.

Lemma shr_inRange a n : Int.inRange a -> 0 <= n -> Int.inRange (Int.shr a n).
Proof.
  intros Ha Hn. unfold Int.shr. destruct (Int.width <=? n).
  - destruct (a <? 0); vm_compute; split; discriminate.
  - rewrite inRange_bits in *. intros i Hi.
    rewrite !Z.shiftr_spec by lia.
    rewrite (Ha (i + n)), (Ha (63 + n)) by lia. reflexivity.
Qed.

Lemma shl_inRange a n : Int.inRange (Int.shl a n).
Proof.
  unfold Int.shl. destruct (Int.width <=? n); [|apply wrap_inRange].
  vm_compute. split; discriminate.
Qed.

Lemma toInt_inRange t : Int.inRange (toInt t).
Proof. destruct t; vm_compute; split; discriminate. Qed.

Lemma zero_inRange : Int.inRange 0.
Proof. vm_compute; split; discriminate. Qed.

Lemma ErrorMode_error_inRange errMode msg v :
  ErrorMode_error errMode msg = Ret v -> Int.inRange v.
Proof.
  unfold ErrorMode_error. destruct (errMode =? ReturnZero).
  - intros [= <-]. apply zero_inRange.
  - destruct (errMode =? ReturnError); discriminate.
Qed.

Lemma evalBinary_inRange errMode o a b v :
  Int.inRange a -> Int.inRange b ->
  evalBinary errMode o a b = Ret v -> Int.inRange v.
Proof.
  intros Ha Hb. unfold evalBinary, Int.add, Int.sub, Int.mul, Int.quo, Int.rem.
  repeat match goal with
         | |- context [String.eqb o ?x] => destruct (String.eqb o x)
         end;
    try (destruct (b =? 0)); try (destruct (Z.ltb_spec b 0));
    try apply ErrorMode_error_inRange;
    try discriminate; intros [= <-];
    first
      [ apply wrap_inRange
      | apply toInt_inRange
      | apply shl_inRange
      | apply shr_inRange; assumption
      | apply (bitwise_inRange Z.land andb); auto using Z.land_spec
      | apply (bitwise_inRange Z.lor orb); auto using Z.lor_spec
      | apply (bitwise_inRange Z.lxor xorb); auto using Z.lxor_spec
      | apply (bitwise_inRange Z.ldiff (fun x y => x && negb y));
        auto using Z.ldiff_spec ].
Qed.

Lemma evalUnary_inRange o a v :
  Int.inRange a -> evalUnary o a = Ret v -> Int.inRange v.
Proof.
  intros Ha. unfold evalUnary, Int.neg.
  repeat match goal with
         | |- context [String.eqb o ?x] => destruct (String.eqb o x)
         end; try discriminate; intros [= <-];
    auto using wrap_inRange, toInt_inRange, lnot_inRange.
Qed.

Lemma eval_inRange e (vars : gmap string Z) errMode :
  map_Forall (fun _ n => Int.inRange n) vars ->
  Forall Int.inRange (numLeaves e) ->
  forall v, eval e vars errMode = Ret v -> Int.inRange v.
Proof.
  intros Hvars. induction e as [| o l IHl r IHr ident num]; intros Hnum v.
  - intros [= <-]. apply zero_inRange.
  - cbn [eval numLeaves] in *.
    apply Forall_app in Hnum as [Hhere Hnum].
    apply Forall_app in Hnum as [Hl Hr].
    destruct (isEmpty o).
    + destruct (isEmpty ident) eqn:Ei; cbn [negb andb] in *.
      * intros [= <-]. inversion Hhere; assumption.
      * destruct (vars !! ident) as [n |] eqn:Hlook.
        -- intros [= <-]. apply (Hvars ident n Hlook).
        -- apply ErrorMode_error_inRange.
    + destruct (negb (isNil l) && negb (isNil r)).
      * destruct (eval l vars errMode) as [a |]; [|discriminate].
        destruct (eval r vars errMode) as [b |]; [|discriminate].
        cbn [bind]. apply evalBinary_inRange; auto.
      * destruct (negb (isNil r)); [|discriminate].
        destruct (eval r vars errMode) as [b |]; [|discriminate].
        cbn [bind]. apply evalUnary_inRange; auto.
Qed.

(** X7.  The result of [Eval] is an [int]: when the variables are bound to
    values of the 64-bit range and the literals of the tree are in that
    range, every value [Eval] returns is in that range; sums, differences,
    products, quotients, negations and left shifts wrap around. *)
Theorem Eval_result_inRange
    (e : Expr) (vars : gmap string Z) (errMode : ErrorMode) (v : Z)
    (err : option error) :
  map_Forall (fun _ n => Int.inRange n) vars ->
  Forall Int.inRange (numLeaves e) ->
  Eval e vars errMode = Return v err -> Int.inRange v.
Proof.
  intros Hvars Hnum. unfold Eval.
  destruct (eval e vars errMode) as [a | [p | p]] eqn:He.
  - intros [= <- _]. eapply eval_inRange; eassumption.
  - cbn. intros [= <- _]. apply zero_inRange.
  - discriminate.
Qed.

Lemma Eval_result_inRange_witness :
  Eval (binaryNode "*" (numLeaf Int.maxInt) (numLeaf 2)) ∅ ReturnError
  = Return (-2) None
  /\ Int.inRange (-2).
Proof.
  split; [vm_compute; reflexivity|].
  apply (Eval_result_inRange (binaryNode "*" (numLeaf Int.maxInt) (numLeaf 2))
           ∅ ReturnError (-2) None).
  - apply map_Forall_empty.
  - repeat constructor; vm_compute; discriminate.
  - vm_compute. reflexivity.
Defined.

(** X8.  For every input [Parse] accepts whose tree holds no binary [!],
    [Eval] in [ReturnZero] mode returns a value and a nil error, whatever
    the binding. *)
Theorem Eval_ReturnZero_succeeds
    (s : string) (e : Expr) (vars : gmap string Z) :
  Parse s = Return e None ->
  existsb (String.eqb "!") (binaryOpsOf e) = false ->
  exists v, Eval e vars ReturnZero = Return v None.
Proof.
  intros Hp Hnot. apply Parse_Parsed in Hp as [Ht _].
  assert (Hn : ~ In "!" (binaryOpsOf e)).
  { intros Hin. apply not_true_iff_false in Hnot. apply Hnot.
    apply existsb_exists. exists "!". split; [exact Hin | reflexivity]. }
  destruct (eval_ReturnZero_WellFormed vars e
              (ParserTree_WellFormed e Ht Hn)) as [v Hv].
  exists v. unfold Eval. rewrite Hv. reflexivity.
Qed.

Lemma Eval_ReturnZero_succeeds_witness :
  exists v,
    Eval (binaryNode "+" (numLeaf 3)
            (binaryNode "/" (identLeaf "x") (identLeaf "y")))
      (<["x" := 1]> ∅) ReturnZero
    = Return v None.
Proof.
  apply (Eval_ReturnZero_succeeds "3 + x / y"); vm_compute; reflexivity.
Defined.

(** ** Further properties of the parser *)

(** *** The panics of the parser *)

Lemma nextOpLen_panic s v :
  nextOpLen s = Panic v ->
  v = PanicError (runtimeError "index out of range [1] with length 1").
Proof.
  destruct s as [| c s]; [discriminate|]. cbn [nextOpLen].
  destruct (containsByte "+-*/%^" c); [discriminate|].
  destruct (Ascii.eqb c "<"); [discriminate|].
  destruct (Ascii.eqb c ">"); [discriminate|].
  destruct (Ascii.eqb c "&"); [discriminate|].
  destruct (Ascii.eqb c "|"); [discriminate|].
  destruct (Ascii.eqb c "!"); [discriminate|].
  destruct (Ascii.eqb c "="); [|discriminate].
  destruct (2 <=? len (String c s)) eqn:E; [discriminate|].
  destruct s as [| d s].
  - cbn. intros [= <-]. reflexivity.
  - apply Z.leb_gt in E. unfold len in E. cbn [String.length] in E. lia.
Qed.

Lemma op_panic singles doubles s v :
  op singles doubles s = Panic v ->
  v = PanicError (runtimeError "index out of range [1] with length 1").
Proof.
  unfold op. destruct (nextOpLen s) as [n | p] eqn:Hn; cbn [bind].
  - destruct n as [| [| [| n]]]; [discriminate | | | discriminate].
    + destruct (take 1 s); [discriminate|].
      destruct (containsByte singles a); discriminate.
    + destruct (containsPair doubles (take 2 s)); discriminate.
  - intros [= <-]. apply (nextOpLen_panic _ _ Hn).
Qed.

Section ParseThrows.
Variables singles doubles : string.
Variable nextLevel : string -> presult.
Hypothesis nextThrows : Throws nextLevel.

Lemma parseLoop_Throws n : forall e s v,
  parseLoop n singles doubles nextLevel e s = PPanic v ->
  exists err, v = PanicError err /\ factorError err.
Proof.
  induction n as [| n IH]; intros e s v; rewrite parseLoop_eq;
    destruct (peek true s) as [c s0];
    (destruct (Ascii.eqb c eof); [discriminate|]);
    (destruct (op singles doubles s0) as [[o s1] | p] eqn:Hop;
     [| intros [= <-]; apply op_panic in Hop; subst p;
        eexists; split; [reflexivity | unfold factorError; auto 6]]);
    (destruct (isEmpty o); [discriminate|]).
  - discriminate.
  - destruct (nextLevel s1) as [r rest | p |] eqn:Hn; [apply IH | | discriminate].
    intros [= <-]. apply (nextThrows _ _ Hn).
Qed.

Lemma parse_Throws : Throws (parse singles doubles nextLevel).
Proof.
  intros s v. unfold parse.
  destruct (nextLevel s) as [e rest | p |] eqn:Hn;
    [apply parseLoop_Throws | | discriminate].
  intros [= <-]. apply (nextThrows _ _ Hn).
Qed.

End ParseThrows.

Lemma orListOver_Throws f : Throws f -> Throws (orListOver f).
Proof.
  intros Hf. unfold orListOver, andListOver, cmpListOver, exprOver, termOver.
  repeat apply parse_Throws. exact Hf.
Qed.

Lemma factor_Throws fuel : Throws (factor fuel).
Proof.
  induction fuel as [| fuel IH]; intros s v; [discriminate|].
  rewrite factor_S.
  destruct (peek_true_cases s) as [[Hk Hp] | (c & t & Hk & Hp)]; rewrite Hp.
  { cbn. intros [= <-]. eexists; split; [reflexivity | left; reflexivity]. }
  destruct (Ascii.eqb c eof).
  { intros [= <-]. eexists; split; [reflexivity | left; reflexivity]. }
  destruct (isDigit c).
  { destruct (number (String c t)). discriminate. }
  destruct (isAlpha c false).
  { destruct (identifier (String c t)). discriminate. }
  destruct (starts "+-^!" (String c t)).
  { cbn [next]. destruct (factor fuel t) as [r rest | p |] eqn:Hf; try discriminate.
    intros [= <-]. apply (IH _ _ Hf). }
  destruct (Ascii.eqb c "(").
  - cbn [next].
    destruct (orListOver (factor fuel) t) as [e s1 | p |] eqn:Ho.
    + destruct (next true s1) as [c2 t2]. destruct (negb (Ascii.eqb c2 ")")).
      * intros [= <-]. eexists; split; [reflexivity|].
        right; right; left. eauto.
      * discriminate.
    + intros [= <-]. apply (orListOver_Throws _ IH _ _ Ho).
    + discriminate.
  - intros [= <-]. eexists; split; [reflexivity|].
    right; left. exists c, t. reflexivity.
Qed.

Lemma orList_outcome s :
  (exists e rest, orList (parseFuel s) s = POk e rest /\ ParserTree e)
  \/ (exists err, orList (parseFuel s) s = PPanic (PanicError err)
                  /\ factorError err).
Proof.
  destruct (orList (parseFuel s) s) as [e rest | p |] eqn:H.
  - left. exists e, rest. split; [reflexivity|].
    apply (orListOver_Sound _ (factor_Sound _)) in H. apply H.
  - right. unfold orList in H.
    destruct (orListOver_Throws _ (factor_Throws _) _ _ H) as (err & -> & Herr).
    eauto.
  - exfalso. unfold orList in H.
    apply (orListOver_Fueled (parseFuel s) (factor (parseFuel s))
             (factor_Sound _) (factor_Fueled _)) with (s := s);
      [unfold parseFuel; lia | exact H].
Qed.

(** X9.  [Parse] returns on every input: it neither loops nor lets a panic
    through.  A nil error comes with a tree that is not nil. *)
Theorem Parse_returns (s : string) :
  exists e err,
    Parse s = Return e err /\ (err = None -> isNil e = false).
Proof.
  unfold Parse.
  destruct (orList_outcome s) as [(e & rest & -> & Ht) | (err & -> & _)].
  - destruct (peek true rest) as [c rest']. destruct (negb (Ascii.eqb c eof)).
    + cbn [recoverer]. eexists _, _. split; [reflexivity | discriminate].
    + eexists _, _. split; [reflexivity|].
      intros _. apply (Shaped_not_Nil _ _ _ Ht).
  - cbn [recoverer]. eexists _, _. split; [reflexivity | discriminate].
Qed.



(** X11.  The shape of a parsed tree.  Every node of a tree [Parse]
    returns with a nil error is a numeric leaf with a value of the [int]
    range, an identifier leaf whose name is a letter or underscore followed
    by letters, digits and underscores, a unary node without left child
    whose operator is one of [+ - ^ !], or a binary node with two children
    whose operator is one of the nineteen binary operators or [!]. *)
Theorem Parse_tree_shape (s : string) (e : Expr) :
  Parse s = Return e None ->
  ParserTree e
  /\ Forall (fun o => In o parserBinaryOps) (binaryOpsOf e)
  /\ Forall (fun x => validIdent x = true) (identsOf e).
Proof.
  intros Hp. apply Parse_Parsed in Hp as [Ht _].
  split; [exact Ht | split; [apply ParserTree_binaryOps, Ht|]].
  unfold ParserTree in Ht.
  induction Ht as [n Hn | x Hx | o r Ho Hr IHr | o l r Ho Hl IHl Hr IHr].
  - constructor.
  - cbn. rewrite (validIdent_not_empty _ Hx). constructor; [exact Hx | constructor].
  - cbn [identsOf unaryNode isNil negb andb].
    rewrite (In_unaryOps_not_empty _ Ho), (Shaped_not_Nil _ _ _ Hr). exact IHr.
  - cbn [identsOf binaryNode].
    rewrite (In_binaryOps_not_empty _ Ho), (Shaped_not_Nil _ _ _ Hl),
      (Shaped_not_Nil _ _ _ Hr).
    cbn [negb andb]. apply Forall_app. auto.
Qed.

Lemma Parse_tree_shape_witness :
  ParserTree (binaryNode "<=" (identLeaf "a_1") (unaryNode "-" (numLeaf 2))).
Proof.
  apply (Parse_tree_shape "a_1<=-2"). vm_compute. reflexivity.
Defined.

Lemma renderable_Renderable e : renderable e = true -> Renderable e.
Proof.
  intros H. apply shaped_Shaped in H.
  eapply Shaped_impl; [| | exact H]; [auto|].
  intros n Hn. cbn beta in Hn. apply andb_true_iff in Hn. lia.
Qed.

(** X12.  Rendering is faithful on trees of the parser's shape without
    negative literals: [Parse] accepts the rendering and returns the very
    tree, so two such trees with the same rendering are the same tree. *)
Theorem String_then_Parse (e1 e2 : Expr) :
  renderable e1 = true -> renderable e2 = true ->
  Parse (String_ e1) = Return e1 None
  /\ (String_ e1 = String_ e2 -> e1 = e2).
Proof.
  intros H1 H2.
  pose proof (Parse_String e1 (renderable_Renderable e1 H1)) as P1.
  pose proof (Parse_String e2 (renderable_Renderable e2 H2)) as P2.
  split; [exact P1|].
  intros Heq. rewrite Heq in P1. rewrite P1 in P2. injection P2 as ->.
  reflexivity.
Qed.

Lemma String_then_Parse_witness :
  Parse "((-x) * 12)"
  = Return (binaryNode "*" (unaryNode "-" (identLeaf "x")) (numLeaf 12)) None.
Proof.
  apply (String_then_Parse
           (binaryNode "*" (unaryNode "-" (identLeaf "x")) (numLeaf 12))
           (numLeaf 0)); reflexivity.
Defined.

(** *** White space before the expression *)

Lemma factor_skip fuel c s :
  containsByte whitespace c = true -> factor fuel (String c s) = factor fuel s.
Proof.
  intros Hc. destruct fuel as [| fuel]; [reflexivity|].
  rewrite !factor_S. unfold peek. cbn [skip starts]. rewrite Hc. reflexivity.
Qed.

Lemma parse_same_start singles doubles (g : string -> presult) s s' :
  g s = g s' -> parse singles doubles g s = parse singles doubles g s'.
Proof. intros H. unfold parse. rewrite H. reflexivity. Qed.

Lemma orListOver_skip f c s :
  f (String c s) = f s -> orListOver f (String c s) = orListOver f s.
Proof.
  intros H. unfold orListOver, andListOver, cmpListOver, exprOver, termOver.
  do 5 apply parse_same_start. exact H.
Qed.

(** X13.  White space before the expression is ignored: a space, tab,
    newline or carriage return in front of the input changes neither the
    tree nor the error [Parse] returns. *)
Theorem Parse_leading_space (c : ascii) (s : string) :
  containsByte whitespace c = true -> Parse (String c s) = Parse s.
Proof.
  intros Hc. unfold Parse.
  assert (H : orList (parseFuel (String c s)) (String c s)
              = orList (parseFuel s) s).
  { unfold orList at 1.
    rewrite (orListOver_skip _ c s (factor_skip _ c s Hc)).
    apply orList_fuel. unfold parseFuel. cbn. lia. }
  rewrite H. reflexivity.
Qed.

Lemma Parse_leading_space_witness :
  Parse (String "009" " x +") = Parse " x +".
Proof. apply Parse_leading_space. reflexivity. Defined.

(** *** Inputs without an expression, and literals *)

Section PanicThrough.
Variables singles doubles : string.
Variable nextLevel : string -> presult.

Lemma parse_panic s v :
  nextLevel s = PPanic v -> parse singles doubles nextLevel s = PPanic v.
Proof. intros H. unfold parse. rewrite H. reflexivity. Qed.

End PanicThrough.

(** X14.  An input without an expression: when the input is empty, holds
    only white space, or has a NUL byte as its first byte after white
    space, [Parse] returns a nil tree and the error "unexpected eof". *)
Theorem Parse_no_expression (s : string) :
  fst (peek true s) = eof ->
  Parse s = Return Nil (Some (errorString "unexpected eof")).
Proof.
  intros H. unfold Parse, orList.
  assert (Hf : factor (parseFuel s) s = pthrow "unexpected eof").
  { unfold parseFuel. rewrite factor_S.
    destruct (peek true s) as [c s0]. cbn [fst] in H. subst c. reflexivity. }
  unfold orListOver, andListOver, cmpListOver, exprOver, termOver.
  rewrite (parse_panic _ _ _ _ (PanicError (errorString "unexpected eof")));
    [reflexivity|].
  do 4 apply parse_panic. exact Hf.
Qed.

Lemma Parse_no_expression_witness :
  Parse (String " " (String "010" (String "009" "")))
  = Return Nil (Some (errorString "unexpected eof")).
Proof. apply Parse_no_expression. reflexivity. Defined.

Lemma numberLoop_allDigits s : forall n,
  allDigits s = true -> snd (numberLoop n s) = EmptyString.
Proof.
  induction s as [| c s IH]; intros n H; [reflexivity|].
  cbn [allDigits numberLoop] in *. apply andb_true_iff in H as [Hc Hs].
  rewrite Hc. apply IH, Hs.
Qed.

(** X15.  An input of decimal digits only is one numeric leaf, whose value
    is the number the digits denote reduced modulo 2^64 to the range of
    [int]; leading zeros are accepted and a number up to 2^63 - 1 is read
    as it is. *)
Theorem Parse_digits (s : string) :
  s <> EmptyString -> allDigits s = true ->
  Parse s = Return (numLeaf (Int.wrap (digitsValue 0 s))) None
  /\ (digitsValue 0 s <= Int.maxInt ->
      Parse s = Return (numLeaf (digitsValue 0 s)) None).
Proof.
  intros Hne Hd.
  assert (Hp : Parse s = Return (numLeaf (Int.wrap (digitsValue 0 s))) None).
  { destruct s as [| c t]; [contradiction|].
    cbn [allDigits] in Hd. apply andb_true_iff in Hd as [Hc Ht].
    destruct (isDigit_first c Hc) as [Hw He].
    assert (Hn : number (String c t)
                 = (Int.wrap (digitsValue 0 (String c t)), EmptyString)).
    { apply injective_projections; cbn [fst snd].
      - apply number_value.
      - apply numberLoop_allDigits. cbn [allDigits]. rewrite Hc, Ht. reflexivity. }
    assert (Hf : factor (parseFuel (String c t)) (String c t)
                 = POk (numLeaf (Int.wrap (digitsValue 0 (String c t))))
                     EmptyString).
    { unfold parseFuel. rewrite factor_S. unfold peek.
      rewrite (skip_id _ _ Hw), He, Hc, Hn. reflexivity. }
    unfold Parse, orList, orListOver, andListOver, cmpListOver, exprOver,
      termOver.
    rewrite (parse_stop_eof _ _ _ _
               (numLeaf (Int.wrap (digitsValue 0 (String c t)))));
      [reflexivity|].
    do 4 apply parse_stop_eof. exact Hf. }
  split; [exact Hp|].
  intros Hmax. rewrite Hp. rewrite wrap_small; [reflexivity|].
  pose proof (digitsValue_ge 0 s). unfold Int.inRange. split; [|exact Hmax].
  transitivity 0; [discriminate | lia].
Qed.

Lemma Parse_digits_witness :
  Parse "0018446744073709551617" = Return (numLeaf 1) None
  /\ Parse "007" = Return (numLeaf 7) None.
Proof.
  destruct (Parse_digits "0018446744073709551617") as [H1 _];
    [discriminate | reflexivity |].
  destruct (Parse_digits "007") as [_ H2]; [discriminate | reflexivity |].
  split; [exact H1 | apply H2; vm_compute; discriminate].
Defined.

Lemma op_of_length_two singles doubles a b t :
  nextOpLen (String a (String b t)) = Ret 2%nat ->
  op singles doubles (String a (String b t))
  = Ret (String a (String b EmptyString), t)
  \/ op singles doubles (String a (String b t))
     = Ret (EmptyString, String a (String b t)).
Proof.
  intros H. unfold op. rewrite H. cbn [bind take drop].
  destruct (containsPair doubles (String a (String b EmptyString))); auto.
Qed.

(** X16.  Two-byte operators are read whole: at an input that starts with
    one of [== != >= <= && || << >> &^], [op] returns that operator and the
    input after it, or no operator and the input unchanged; it never
    returns the first byte alone, whatever operators the level accepts. *)
Theorem op_two_bytes (singles doubles : string) (t : string) :
  Forall (fun d =>
            op singles doubles (d +:+ t) = Ret (d, t)
            \/ op singles doubles (d +:+ t) = Ret (EmptyString, d +:+ t))
    twoByteOps.
Proof.
  unfold twoByteOps.
  repeat (constructor;
          [ apply op_of_length_two;
            first [reflexivity | apply nextOpLen_equals] |]).
  constructor.
Qed.

(** *** Unary operators composed *)

Lemma wrap_neg a : Int.wrap (- Int.wrap a) = Int.wrap (- a).
Proof.
  apply wrap_eqm.
  rewrite <- (Z.sub_0_l (Int.wrap a)), <- (Z.sub_0_l a).
  rewrite Zminus_mod, wrap_mod, <- Zminus_mod. reflexivity.
Qed.

Lemma neg_neg a : Int.inRange a -> Int.neg (Int.neg a) = a.
Proof.
  intros Ha. unfold Int.neg. rewrite wrap_neg, Z.opp_involutive.
  apply wrap_small, Ha.
Qed.

(** X17.  Unary operators composed: [+r] evaluates like [r], [^^r]
    evaluates like [r], and [--r] evaluates like [r] when the variables and
    the literals are in the range of [int] (the most negative [int] is its
    own negation), in every mode and with the same error when [r] fails. *)
Theorem Eval_unary_composed
    (r : Expr) (vars : gmap string Z) (errMode : ErrorMode) :
  isNil r = false ->
  Eval (unaryNode "+" r) vars errMode = Eval r vars errMode
  /\ Eval (unaryNode "^" (unaryNode "^" r)) vars errMode = Eval r vars errMode
  /\ (map_Forall (fun _ n => Int.inRange n) vars ->
      Forall Int.inRange (numLeaves r) ->
      Eval (unaryNode "-" (unaryNode "-" r)) vars errMode
      = Eval r vars errMode).
Proof.
  intros Hr. unfold Eval, unaryNode.
  rewrite !(eval_unary _ (Node _ Nil r "" 0)) by reflexivity.
  rewrite !eval_unary by auto.
  split; [|split].
  - destruct (eval r vars errMode); reflexivity.
  - destruct (eval r vars errMode) as [b | p]; [|reflexivity].
    cbn. rewrite Z.lnot_involutive. reflexivity.
  - intros Hvars Hnum.
    destruct (eval r vars errMode) as [b | p] eqn:He; [|reflexivity].
    cbn. rewrite neg_neg; [reflexivity|].
    eapply eval_inRange; eassumption.
Qed.

Lemma Eval_unary_composed_witness :
  Eval (unaryNode "-" (unaryNode "-" (numLeaf Int.minInt))) ∅ ReturnError
  = Return Int.minInt None.
Proof.
  destruct (Eval_unary_composed (numLeaf Int.minInt) ∅ ReturnError eq_refl)
    as (_ & _ & H).
  rewrite H; [reflexivity | apply map_Forall_empty |].
  repeat constructor; vm_compute; discriminate.
Defined.
